(** * AI playground: admission control, speaker attribution, document pipeline

    A shallow embedding of the request-processing core of the repository:

    - [RateLimiter]   : [src/app/lib/rate-limiter.ts]
    - [Diarization]   : [performDiarization] of the conversation route
    - [DocumentRoute] : [src/app/api/analyze/document/route.ts]
    - [ImageRoute]    : the image analysis route

    JavaScript numbers that hold millisecond timestamps and counters are
    modelled as [Z]; the module-level [Map] of the limiter is a [gmap]
    that is threaded through every call. *)

From stdpp Require Import gmap strings list fin_maps pretty.
From Stdlib Require Import ZArith Lia Ascii.

#[local] Open Scope string_scope.
#[local] Open Scope list_scope.
#[local] Open Scope Z_scope.

(* ===================================================================== *)
(** ** The admission controller ([rate-limiter.ts])                       *)
(* ===================================================================== *)

Module RateLimiter.

(** [interface RateLimitConfig] *)
Record RateLimitConfig : Type := mkConfig {
  interval : Z;      (* time window in milliseconds *)
  maxRequests : Z    (* maximum requests allowed in the interval *)
}.

(** [interface RequestLog] *)
Record RequestLog : Type := mkLog {
  count : Z;
  resetTime : Z
}.

(** The part of a [NextRequest] the limiter reads: its headers, looked
    up by (lower-case) name. [headers.get] answers [null] for a header
    that is absent, here [None]. *)
Record NextRequest : Type := mkRequest {
  headers : gmap string string
}.

(** The object returned by a limiter. [retryAfter] is only present on
    a rejection. *)
Record RateLimitResult : Type := mkResult {
  allowed : bool;
  remaining : Z;
  resultResetTime : Z;
  retryAfter : option Z
}.

(** [const requestLogs = new Map<string, RequestLog>()]: one store for
    the whole module, shared by every limiter that [rateLimit] builds. *)
Abbreviation Store := (gmap string RequestLog).

Definition requestLogs_init : Store := ∅.

(** JavaScript's [a || b] on values that are a string, [undefined] or
    [null]: the empty string is falsy as well. *)
Definition truthy (v : option string) : bool :=
  match v with
  | Some s => negb (String.eqb s "")
  | None => false
  end.

Definition js_or (a b : option string) : option string :=
  if truthy a then a else b.

(** [identifier || headers.get('x-forwarded-for') ||
     headers.get('x-real-ip') || 'anonymous'] *)
Definition resolve_id (request : NextRequest) (identifier : option string) : string :=
  match js_or identifier
          (js_or (headers request !! "x-forwarded-for")
             (js_or (headers request !! "x-real-ip") (Some "anonymous"))) with
  | Some s => s
  | None => "anonymous"
  end.

(** [Math.ceil(x / d)] on integers, for a positive [d]. *)
Definition ceil_div (x d : Z) : Z := - ((- x) / d).

(** The closure returned by [rateLimit(config)], applied to a request
    at clock reading [now] (= [Date.now()]) in the store [logs]. *)
Definition rateLimit (config : RateLimitConfig) (now : Z)
    (request : NextRequest) (identifier : option string)
    (logs : Store) : RateLimitResult * Store :=
  let id := resolve_id request identifier in
  match logs !! id with
  | Some log =>
      if bool_decide (resetTime log < now) then
        (mkResult true (maxRequests config - 1) (now + interval config) None,
         <[id := mkLog 1 (now + interval config)]> logs)
      else if bool_decide (count log >= maxRequests config) then
        (mkResult false 0 (resetTime log)
           (Some (ceil_div (resetTime log - now) 1000)),
         logs)
      else
        let log' := mkLog (count log + 1) (resetTime log) in
        (mkResult true (maxRequests config - count log') (resetTime log') None,
         <[id := log']> logs)
  | None =>
      (mkResult true (maxRequests config - 1) (now + interval config) None,
       <[id := mkLog 1 (now + interval config)]> logs)
  end.

(** The [setInterval] callback: drop every entry whose window is over. *)
Definition sweep (now : Z) (logs : Store) : Store :=
  filter (λ kv, ¬ (resetTime kv.2 < now)) logs.

(** [export const rateLimiters] *)
Definition standard_config : RateLimitConfig := mkConfig 60000 30.
Definition heavy_config : RateLimitConfig := mkConfig 60000 5.
Definition auth_config : RateLimitConfig := mkConfig 900000 10.
Definition image_config : RateLimitConfig := mkConfig 60000 10.

Definition default_config : RateLimitConfig := mkConfig 60000 10.

(** *** Runs of a limiter *)

(** Successive calls of one limiter for one request shape, at the given
    clock readings; the results are listed in call order. *)
Fixpoint admit_all (config : RateLimitConfig) (request : NextRequest)
    (identifier : option string) (times : list Z) (logs : Store)
    : list RateLimitResult * Store :=
  match times with
  | [] => ([], logs)
  | now :: rest =>
      let '(r, logs1) := rateLimit config now request identifier logs in
      let '(rs, logs2) := admit_all config request identifier rest logs1 in
      (r :: rs, logs2)
  end.

(** Successive calls of one limiter by arbitrary callers: each call has
    its own clock reading, request and optional explicit identifier. *)
Fixpoint admit_each (config : RateLimitConfig)
    (calls : list (Z * NextRequest * option string)) (logs : Store)
    : list RateLimitResult * Store :=
  match calls with
  | [] => ([], logs)
  | (now, request, identifier) :: rest =>
      let '(r, logs1) := rateLimit config now request identifier logs in
      let '(rs, logs2) := admit_each config rest logs1 in
      (r :: rs, logs2)
  end.

(** A request that carries neither of the two address headers. *)
Definition no_address_header (request : NextRequest) : Prop :=
  headers request !! "x-forwarded-for" = None ∧
  headers request !! "x-real-ip" = None.

(** What can happen to the store: a limiter call or a sweep tick. *)
Inductive event : Type :=
| Admit (now : Z) (request : NextRequest) (identifier : option string)
| Sweep (now : Z).

Definition event_time (e : event) : Z :=
  match e with
  | Admit now _ _ => now
  | Sweep now => now
  end.

Definition apply_event (config : RateLimitConfig) (e : event) (logs : Store) : Store :=
  match e with
  | Admit now request identifier => (rateLimit config now request identifier logs).2
  | Sweep now => sweep now logs
  end.

Definition run (config : RateLimitConfig) (es : list event) (logs : Store) : Store :=
  foldl (λ s e, apply_event config e s) logs es.

(** The window of [id] is closed in [logs] at time [now]: there is no
    entry, or its reset time has passed. *)
Definition window_closed (logs : Store) (id : string) (now : Z) : Prop :=
  match logs !! id with
  | Some log => resetTime log < now
  | None => True
  end.

#[global] Instance window_closed_dec logs id now : Decision (window_closed logs id now).
Proof. unfold window_closed. destruct (logs !! id); apply _. Defined.

(** Every stored counter lies between 1 and the ceiling. *)
Definition counts_bounded (config : RateLimitConfig) (logs : Store) : Prop :=
  ∀ id log, logs !! id = Some log → 1 ≤ count log ≤ maxRequests config.

End RateLimiter.


(* ===================================================================== *)
(** ** The speaker attribution engine ([performDiarization])              *)
(* ===================================================================== *)

(** A transcript is a JavaScript string, a sequence of UTF-16 code units.
    The embedding covers the code units below 256, one per [ascii]; on
    these, [\s], [trim] and [toLowerCase] are the functions below. *)
Module Diarization.

Definition code (c : ascii) : N := N_of_ascii c.

(** [\s] of a regular expression and the white space [trim] removes:
    TAB, LF, VT, FF, CR, SPACE and NO-BREAK SPACE. *)
Definition is_space (c : ascii) : bool :=
  existsb (N.eqb (code c)) [9; 10; 11; 12; 13; 32; 160]%N.

(** The character class [[.!?]]. *)
Definition is_terminal (c : ascii) : bool :=
  existsb (N.eqb (code c)) [46; 33; 63]%N.

Definition is_empty (s : string) : bool :=
  match s with
  | EmptyString => true
  | String _ _ => false
  end.

(** [s.split(/(?<=[.!?])\s+/)], as the first piece and the later ones. A
    separator is a maximal run of white space that starts right after a
    character of [[.!?]]; [in_separator] says that the previous character
    belongs to a separator, [after_terminal] that it is in [[.!?]]. *)
Fixpoint split_pieces (after_terminal in_separator : bool) (s : string)
    : string * list string :=
  match s with
  | EmptyString => (EmptyString, [])
  | String c s' =>
      if is_space c && (in_separator || after_terminal) then
        let '(piece, pieces) := split_pieces false true s' in
        if in_separator then (piece, pieces)
        else (EmptyString, piece :: pieces)
      else
        let '(piece, pieces) := split_pieces (is_terminal c) false s' in
        (String c piece, pieces)
  end.

Definition split_sentences (transcript : string) : list string :=
  let '(piece, pieces) := split_pieces false false transcript in
  piece :: pieces.

Fixpoint trimStart (s : string) : string :=
  match s with
  | EmptyString => EmptyString
  | String c s' => if is_space c then trimStart s' else s
  end.

Fixpoint trimEnd (s : string) : string :=
  match s with
  | EmptyString => EmptyString
  | String c s' =>
      let t := trimEnd s' in
      if is_space c && is_empty t then EmptyString else String c t
  end.

(** [s.trim()] *)
Definition trim (s : string) : string := trimEnd (trimStart s).

Definition lower (c : ascii) : ascii :=
  let n := code c in
  if (((65 <=? n) && (n <=? 90)) ||
      ((192 <=? n) && (n <=? 222) && negb (n =? 215)))%N
  then ascii_of_N (n + 32) else c.

(** [s.toLowerCase()] *)
Fixpoint toLowerCase (s : string) : string :=
  match s with
  | EmptyString => EmptyString
  | String c s' => String (lower c) (toLowerCase s')
  end.

(** [s.split(' ')], as the first word and the later ones. *)
Fixpoint split_words (s : string) : string * list string :=
  match s with
  | EmptyString => (EmptyString, [])
  | String c s' =>
      let '(w, ws) := split_words s' in
      if Ascii.eqb c " " then (EmptyString, w :: ws) else (String c w, ws)
  end.

Definition split_space (s : string) : list string :=
  let '(w, ws) := split_words s in w :: ws.

(** [s.includes('?')] *)
Fixpoint includes_question (s : string) : bool :=
  match s with
  | EmptyString => false
  | String c s' => Ascii.eqb c "?" || includes_question s'
  end.

(** [words.some(w => lexicon.includes(w))] *)
Definition some_in (lexicon words : list string) : bool :=
  existsb (λ w, existsb (String.eqb w) lexicon) words.

Definition first_person : list string := ["i"; "i'm"; "i've"; "i'll"; "my"; "me"].
Definition second_person : list string := ["you"; "you're"; "you've"; "your"].
Definition agreement : list string := ["yes"; "yeah"; "sure"; "okay"; "right"; "exactly"].
Definition disagreement : list string := ["no"; "nope"; "not"; "don't"; "doesn't"].

(** An element of the returned array. *)
Record Segment : Type := mkSegment {
  speaker : string;
  text : string
}.

(** The two variables the [forEach] callback closes over. *)
Record LoopState : Type := mkLoop {
  currentSpeaker : string;
  diarized : list Segment
}.

(** [x === 'Speaker 1' ? 'Speaker 2' : 'Speaker 1'], where [x] may be
    [undefined] (from [prevSentence?.speaker]). *)
Definition other_speaker (x : option string) : string :=
  match x with
  | Some s => if String.eqb s "Speaker 1" then "Speaker 2" else "Speaker 1"
  | None => "Speaker 1"
  end.

(** [a.slice(-2)] *)
Definition slice_last2 {A : Type} (a : list A) : list A :=
  skipn (length a - 2) a.

(** The callback of [sentences.forEach((sentence, index) => ...)]. *)
Definition visit (st : LoopState) (sentence : string) (index : nat) : LoopState :=
  let trimmed := trim sentence in
  if is_empty trimmed then st else
  let words := split_space (toLowerCase trimmed) in
  let hasFirstPerson := some_in first_person words in
  let hasSecondPerson := some_in second_person words in
  let hasAgreement := some_in agreement words in
  let hasDisagreement := some_in disagreement words in
  let current := currentSpeaker st in
  let chosen :=
    if (index =? 0)%nat then "Speaker 1"
    else
      let prevSentence := last (diarized st) in
      if match prevSentence with
         | Some p => includes_question (text p)
         | None => false
         end
      then other_speaker (speaker <$> prevSentence)
      else if hasAgreement || hasDisagreement
      then other_speaker (speaker <$> prevSentence)
      else if hasFirstPerson && negb hasSecondPerson
      then current
      else if hasSecondPerson && negb hasFirstPerson
      then other_speaker (speaker <$> prevSentence)
      else if (0 <? index)%nat &&
              (2 <=? length (List.filter (λ d, String.eqb (speaker d) current)
                               (diarized st)))%nat
      then
        if forallb (λ d, String.eqb (speaker d) current) (slice_last2 (diarized st))
        then other_speaker (Some current)
        else current
      else current
  in
  mkLoop chosen (diarized st ++ [mkSegment chosen trimmed]).

(** [Array.prototype.forEach] with its index argument. *)
Fixpoint forEach (sentences : list string) (index : nat) (st : LoopState) : LoopState :=
  match sentences with
  | [] => st
  | sentence :: rest => forEach rest (S index) (visit st sentence index)
  end.

(** [.filter(s => s.trim())]: a string is truthy when it is not empty. *)
Definition keeps (s : string) : bool := negb (is_empty (trim s)).

Definition performDiarization (transcript : string) : list Segment :=
  let sentences := List.filter keeps (split_sentences transcript) in
  diarized (forEach sentences 0 (mkLoop "Speaker 1" [])).

(** *** The loop as a recursion over the two labels

    An intermediate form of the loop, with the tests of the code. *)

Inductive label : Type := LabelA | LabelB.

Definition label_name (l : label) : string :=
  match l with
  | LabelA => "Speaker 1"
  | LabelB => "Speaker 2"
  end.

Definition flip (l : label) : label :=
  match l with
  | LabelA => LabelB
  | LabelB => LabelA
  end.

Definition label_eqb (l1 l2 : label) : bool :=
  match l1, l2 with
  | LabelA, LabelA | LabelB, LabelB => true
  | _, _ => false
  end.


(** The test of the code on a sentence:
    [sentence.toLowerCase().split(' ').some(w => lexicon.includes(w))]. *)
Definition contains_marker (lexicon : list string) (sentence : string) : bool :=
  some_in lexicon (split_space (toLowerCase sentence)).

(** Rules (a) to (f), in this order. [question] is the test applied to
    the previous segment by rule (a); [current] is the label of the
    previous segment and [before] the label of the segment before it. *)
Definition rule_flips (question : string → bool) (previous : string)
    (before : option label) (current : label) (sentence : string) : bool :=
  if question previous then true
  else if contains_marker agreement sentence || contains_marker disagreement sentence
  then true
  else if contains_marker first_person sentence &&
          negb (contains_marker second_person sentence)
  then false
  else if contains_marker second_person sentence &&
          negb (contains_marker first_person sentence)
  then true
  else match before with
       | Some b => label_eqb b current
       | None => false
       end.

Fixpoint attribute_rest (question : string → bool) (before : option label)
    (current : label) (previous : string) (sentences : list string) : list Segment :=
  match sentences with
  | [] => []
  | sentence :: rest =>
      let l := if rule_flips question previous before current sentence
               then flip current else current in
      mkSegment (label_name l) sentence
        :: attribute_rest question (Some current) l sentence rest
  end.

(** Split, discard the blank fragments, give the first sentence label A
    and run the rule chain on the others. *)
Definition attribute (question : string → bool) (transcript : string) : list Segment :=
  match map trim (List.filter keeps (split_sentences transcript)) with
  | [] => []
  | sentence :: rest =>
      mkSegment (label_name LabelA) sentence
        :: attribute_rest question None LabelA sentence rest
  end.

(** The string is empty or consists of white space only. *)
Fixpoint all_space (s : string) : bool :=
  match s with
  | EmptyString => true
  | String c s' => is_space c && all_space s'
  end.

(** A split point: a character of [[.!?]] with white space right after
    it. *)
Fixpoint has_boundary (s : string) : bool :=
  match s with
  | EmptyString => false
  | String c s' =>
      match s' with
      | EmptyString => false
      | String d _ => (is_terminal c && is_space d) || has_boundary s'
      end
  end.

Fixpoint ends_in_terminal (s : string) : bool :=
  match s with
  | EmptyString => false
  | String c s' =>
      match s' with
      | EmptyString => is_terminal c
      | String _ _ => ends_in_terminal s'
      end
  end.

Definition starts_with_space (s : string) : bool :=
  match s with
  | EmptyString => false
  | String c _ => is_space c
  end.

(** Splitting on sentence-terminal punctuation followed by white space:
    the transcript is its sentences with a non-empty run of white space
    between neighbours; every sentence but the last ends in terminal
    punctuation, none has a split point inside, and the runs are
    maximal. *)
Inductive Split : string → list string → Prop :=
| Split_last (p : string) :
    has_boundary p = false →
    Split p [p]
| Split_more (p w rest : string) (pieces : list string) :
    has_boundary p = false →
    ends_in_terminal p = true →
    is_empty w = false →
    all_space w = true →
    starts_with_space rest = false →
    Split rest pieces →
    Split (p +:+ w +:+ rest) (p :: pieces).

(** The recursion with the test of the code on the previous segment. *)
Definition attribute_on_contained_question : string → list Segment :=
  attribute includes_question.

End Diarization.

(* ===================================================================== *)
(** ** The rule chain of the specification                                *)
(* ===================================================================== *)

Module RuleChain.
Import Diarization.















End RuleChain.


(* ===================================================================== *)
(** ** What the route handlers share                                      *)
(* ===================================================================== *)

Module Route.

(** A thrown value, as far as the handlers inspect it: [error.message],
    [error.status] (inference client), [error.code] and
    [error.response?.status] (HTTP client). *)
Record JsError : Type := mkError {
  message : string;
  status : option Z;
  code : option string;
  response_status : option Z
}.

(** [new Error(message)] *)
Definition Error (msg : string) : JsError := mkError msg None None None.

(** The requests sent to the inference provider, by prompt template and
    the values spliced into it. *)
Inductive ChatRequest : Type :=
| PageAnalysis (fileName : string) (page : nat) (image : string)
| OverallSummary (fileName : string) (pageCount analyzed : nat) (combined : string)
| PdfTextSummary (fileName text : string)
| PdfLastResortSummary (fileName text : string)
| ContentSummary (fileName text : string)
| ImageDescription (type image : string).

(** Calls that leave the process or touch the disk. *)
Inductive Call : Type :=
| CallFetch (url : string)
| CallMammoth
| CallPrepare
| CallParsePDF
| CallRenderPage (page : nat)
| CallOpenAI (req : ChatRequest).

Inductive Details : Type :=
| RetryAfterDetails (seconds : Z)
| StackDetails.

(** The description texts of the image route, by template. *)
Inductive Description : Type :=
| FromModel (content : string)
| DemoMode (type : string) (size : Z)
| ModelMissing (name type : string) (size : Z)
| ServiceUnavailable (name type : string) (size : Z).

(** JSON bodies. The [timestamp] and [processedAt] fields, which only
    carry the wall-clock time, are left out. *)
Inductive Body : Type :=
| ErrorBody (error : string) (details : option Details)
| RateLimitedBody (error : string) (retryAfter : option Z)
| SummaryBody (summary fileName : string) (remainingRequests : Z)
| DescriptionBody (description : Description).

(** Header values: a literal, [String(n)] of a number that may be
    [undefined], or [new Date(t).toISOString()]. *)
Inductive HeaderValue : Type :=
| HeaderText (s : string)
| HeaderNumber (n : option Z)
| HeaderIsoTime (t : Z).

Record Response : Type := mkResponse {
  response_code : Z;
  response_headers : list (string * HeaderValue);
  body : Body
}.

(** How a piece of handler code can end other than by falling through. *)
Inductive Exit : Type :=
| Throw (e : JsError)
| Return (r : Response).

(** Handler code: the calls it made, and its exit or its value. *)
Definition Eff (A : Type) : Type := list Call * (Exit + A).

#[global] Instance eff_ret : MRet Eff := λ A a, ([], inr a).

#[global] Instance eff_bind : MBind Eff := λ A B f m,
  match m with
  | (calls, inl e) => (calls, inl e)
  | (calls, inr a) => let '(calls', r) := f a in (calls ++ calls', r)
  end.

Definition throw {A : Type} (e : JsError) : Eff A := ([], inl (Throw e)).

(** [return response] from inside the handler. *)
Definition respond {A : Type} (r : Response) : Eff A := ([], inl (Return r)).

(** An awaited external call with its outcome. *)
Definition perform {A : Type} (c : Call) (outcome : JsError + A) : Eff A :=
  ([c], match outcome with
        | inl e => inl (Throw e)
        | inr a => inr a
        end).

(** [try { m } catch (e) { handler e }]: a [return] inside [m] is not
    caught. *)
Definition try_catch {A : Type} (m : Eff A) (handler : JsError → Eff A) : Eff A :=
  match m with
  | (calls, inl (Throw e)) => let '(calls', r) := handler e in (calls ++ calls', r)
  | _ => m
  end.

(** [NextResponse.json(body, { status })] *)
Definition json (b : Body) (code : Z) : Response := mkResponse code [] b.

(** [value || fallback] on a string that may be missing. *)
Definition or_default (value : option string) (fallback : string) : string :=
  match value with
  | Some s => if Diarization.is_empty s then fallback else s
  | None => fallback
  end.

(** [!process.env.OPENAI_API_KEY || key === 'your-openai-api-key-here'
     || key === 'dummy-key'] *)
Definition key_missing (key : option string) : bool :=
  match key with
  | Some k =>
      Diarization.is_empty k ||
      String.eqb k "your-openai-api-key-here" || String.eqb k "dummy-key"
  | None => true
  end.

Definition quote : string := String (ascii_of_N 34) EmptyString.
Definition nl : string := String (ascii_of_N 10) EmptyString.

(** [s.slice(0, n)] *)
Definition slice0 (n : N) (s : string) : string :=
  String.substring 0 (N.to_nat n) s.

(** [s.endsWith(suffix)] *)
Definition endsWith (s suffix : string) : bool :=
  let n := String.length s in
  let k := String.length suffix in
  (k <=? n)%nat && String.eqb (String.substring (n - k) k s) suffix.

(** [s.startsWith(prefix)] *)
Definition startsWith (s prefix : string) : bool :=
  String.eqb (String.substring 0 (String.length prefix) s) prefix.

(** [parts.join(sep)] *)
Fixpoint join (sep : string) (parts : list string) : string :=
  match parts with
  | [] => EmptyString
  | [p] => p
  | p :: rest => p +:+ sep +:+ join sep rest
  end.

(** [s.replace(/\s+/g, ' ')] *)
Fixpoint collapse (in_run : bool) (s : string) : string :=
  match s with
  | EmptyString => EmptyString
  | String c s' =>
      if Diarization.is_space c then
        if in_run then collapse true s' else String " " (collapse true s')
      else String c (collapse false s')
  end.

End Route.


(* ===================================================================== *)
(** ** The document route ([api/analyze/document/route.ts])               *)
(* ===================================================================== *)

Module DocumentRoute.
Import RateLimiter Route.

(** What [parsePDF] resolves to. *)
Record PdfData : Type := mkPdf {
  pdf_text : string;
  numpages : nat
}.

(** One [converter(i)] round: an image written and read back, a result
    without [path], or an exception anywhere in the round. *)
Inductive PageResult : Type :=
| Rendered (base64 : string)
| NoPath
| RenderFails.

(** An uploaded [File]; [content] stands for its [arrayBuffer()]. *)
Record File : Type := mkFile {
  name : string;
  size : Z;
  type : string;
  content : string
}.

(** The value of a form field that may carry an upload: a text or a
    file. The handlers cast it to [File] without a test. *)
Inductive FormValue : Type :=
| TextValue (text : string)
| FileValue (file : File).

(** The form fields the handler reads. *)
Record FormData : Type := mkForm {
  field_type : option string;
  field_url : option string;
  field_document : option FormValue
}.

Record Request : Type := mkDocRequest {
  limiter_request : NextRequest;
  formData : JsError + FormData          (* [request.formData()] may reject *)
}.

(** Everything outside the process, as outcomes of the calls made. *)
Record World : Type := mkWorld {
  OPENAI_API_KEY : option string;
  NODE_ENV : option string;
  (** [new URL(url).protocol]; [None] when the constructor throws *)
  url_protocol : string → option string;
  (** [axios.get] and the text of [body] once the [script], [style],
      [nav], [header] and [footer] elements are removed *)
  fetch_body_text : string → JsError + string;
  (** [mammoth.extractRawText(...).value] *)
  mammoth_text : string → JsError + string;
  (** [new TextDecoder().decode(buffer)] *)
  decode : string → string;
  (** temp directory, temp file and [pdf2pic.fromPath] *)
  prepare_converter : string → JsError + unit;
  parsePDF : string → JsError + PdfData;
  converter : string → nat → PageResult;
  (** [openai.chat.completions.create(...)], reduced to
      [choices[0]?.message?.content] *)
  chat : ChatRequest → JsError + option string
}.

(** [errorResponse(message, status = 400, details?)] *)
Definition errorResponse (msg : string) (code : Z) (details : option Details) : Response :=
  json (ErrorBody msg details) code.

Definition extractTextFromUrl (w : World) (url : string) : Eff string :=
  try_catch
    (text ← perform (CallFetch url) (fetch_body_text w url);
     mret (slice0 4000 (Diarization.trim (collapse false text))))
    (λ error,
       if bool_decide (code error = Some "ECONNREFUSED")
       then throw (Error "Cannot connect to the URL")
       else if bool_decide (response_status error = Some 404)
       then throw (Error "URL not found")
       else throw (Error "Failed to fetch URL content")).

Definition extractTextFromDoc (w : World) (buffer : string) : Eff string :=
  try_catch
    (value ← perform CallMammoth (mammoth_text w buffer);
     mret (slice0 4000 value))
    (λ _, throw (Error "Failed to parse Word document")).

(** The [for (let i = 1; i <= maxPages; i++)] loop: [pages] are the
    values of [i] still to visit. *)
Fixpoint render_pages (w : World) (buffer : string) (pages : list nat) : Eff (list string) :=
  match pages with
  | [] => mret []
  | i :: rest =>
      '(tt) ← perform (CallRenderPage i) (inr tt);
      images ← render_pages w buffer rest;
      mret (match converter w buffer i with
            | Rendered base64 => base64 :: images
            | NoPath | RenderFails => images
            end)
  end.

Definition convertPDFToImages (w : World) (buffer : string) : Eff (list string * nat) :=
  '(tt) ← perform CallPrepare (prepare_converter w buffer);
  pdfData ← perform CallParsePDF (parsePDF w buffer);
  let pageCount := if (numpages pdfData =? 0)%nat then 1%nat else numpages pdfData in
  let maxPages := Nat.min pageCount 5 in
  images ← render_pages w buffer (seq 1 maxPages);
  mret (images, pageCount).

(** The page loop of [analyzePDFImages]; [i] is the zero-based index of
    the first image of [images]. *)
Fixpoint analyze_pages (w : World) (fileName : string) (i : nat)
    (images : list string) : Eff (list string) :=
  match images with
  | [] => mret []
  | image :: rest =>
      content ← perform (CallOpenAI (PageAnalysis fileName (i + 1) image))
                  (chat w (PageAnalysis fileName (i + 1) image));
      let pageAnalysis :=
        or_default content ("Unable to analyze page " +:+ pretty (i + 1)%nat) in
      summaries ← analyze_pages w fileName (S i) rest;
      mret (("**Page " +:+ pretty (i + 1)%nat +:+ ":**" +:+ nl +:+ pageAnalysis)
              :: summaries)
  end.

Definition analyzePDFImages (w : World) (images : list string)
    (fileName : string) (pageCount : nat) : Eff string :=
  try_catch
    (summaries ← analyze_pages w fileName 0 images;
     let combinedAnalysis := join (nl +:+ nl) summaries in
     let req := OverallSummary fileName pageCount (length images) combinedAnalysis in
     content ← perform (CallOpenAI req) (chat w req);
     let overallSummary := or_default content "Unable to generate overall summary" in
     mret ("**Document:** " +:+ fileName +:+ " (" +:+ pretty pageCount +:+
           " pages total, analyzed " +:+ pretty (length images) +:+ " pages)" +:+
           nl +:+ nl +:+ overallSummary +:+ nl +:+ nl +:+ "---" +:+ nl +:+ nl +:+
           "**Detailed Page Analysis:**" +:+ nl +:+ nl +:+ combinedAnalysis))
    (λ error,
       if bool_decide (status error = Some 429)
       then throw (Error "API rate limit exceeded. Please wait a moment and try again.")
       else throw error).

(** [textContent && textContent.length > 50] *)
Definition usable_pdf_text (textContent : string) : bool :=
  (50 <? String.length textContent)%nat.

(** The branch [if (isPDF && pdfBuffer)] of the handler. *)
Definition summarize_pdf (w : World) (fileName pdfBuffer : string) : Eff string :=
  try_catch
    ('(images, pageCount) ← convertPDFToImages w pdfBuffer;
     if (0 <? length images)%nat then
       analyzePDFImages w images fileName pageCount
     else
       pdfData ← perform CallParsePDF (parsePDF w pdfBuffer);
       let textContent := slice0 8000 (pdf_text pdfData) in
       if usable_pdf_text textContent then
         content ← perform (CallOpenAI (PdfTextSummary fileName textContent))
                     (chat w (PdfTextSummary fileName textContent));
         mret ("Note: This summary is based on extracted text only." +:+ nl +:+ nl
               +:+ or_default content "Unable to generate summary")
       else
         mret ("Unable to process PDF " +:+ quote +:+ fileName +:+ quote +:+
               ". The document may be image-based or corrupted."))
    (λ pdfError,
       try_catch
         (pdfData ← perform CallParsePDF (parsePDF w pdfBuffer);
          let textContent := slice0 8000 (pdf_text pdfData) in
          if usable_pdf_text textContent then
            content ← perform (CallOpenAI (PdfLastResortSummary fileName textContent))
                        (chat w (PdfLastResortSummary fileName textContent));
            mret (or_default content "Unable to generate summary")
          else
            respond (errorResponse
                       ("PDF processing failed: " +:+ message pdfError) 400 None))
         (λ _, respond (errorResponse
                 "Unable to process this PDF. It may contain only images or be corrupted."
                 400 None))).

(** The [else] branch: text that came from a URL or a non-PDF file. *)
Definition summarize_text (w : World) (fileName textContent : string) : Eff string :=
  if Diarization.is_empty textContent ||
     (String.length (Diarization.trim textContent) <? 10)%nat
  then respond (errorResponse "No meaningful content found to summarize" 400 None)
  else
    content ← perform (CallOpenAI (ContentSummary fileName textContent))
                (chat w (ContentSummary fileName textContent));
    mret (or_default content "Unable to generate summary").

(** What the input stage leaves for the processing stage. *)
Inductive Input : Type :=
| TextInput (fileName textContent : string)
| PdfInput (fileName pdfBuffer : string).

Definition read_url (w : World) (form : FormData) : Eff Input :=
  match field_url form with
  | Some url =>
      if Diarization.is_empty url
      then respond (errorResponse "No URL provided" 400 None)
      else
        match url_protocol w url with
        | Some protocol =>
            if String.eqb protocol "http:" || String.eqb protocol "https:"
            then
              try_catch
                (textContent ← extractTextFromUrl w url;
                 mret (TextInput url textContent))
                (λ error,
                   respond (errorResponse
                              ("Failed to fetch URL: " +:+ message error) 400 None))
            else
              respond (errorResponse
                         "Invalid URL protocol. Only HTTP and HTTPS are supported."
                         400 None)
        | None => respond (errorResponse "Invalid URL format" 400 None)
        end
  | None => respond (errorResponse "No URL provided" 400 None)
  end.

Definition read_file (w : World) (form : FormData) : Eff Input :=
  match field_document form with
  | Some (TextValue text) =>
      (* an empty text is falsy; any other text passes [!file] and, its
         [size] being [undefined], the size test, and has no
         [arrayBuffer] method: the call throws before the inner [try] *)
      if Diarization.is_empty text
      then respond (errorResponse "No file provided" 400 None)
      else throw (Error "file.arrayBuffer is not a function")
  | Some (FileValue file) =>
      if bool_decide (size file > 10 * 1024 * 1024)
      then respond (errorResponse "File too large. Maximum size is 10MB." 400 None)
      else
        let fileName := name file in
        let lowered := Diarization.toLowerCase fileName in
        try_catch
          (if endsWith lowered ".pdf" then
             mret (PdfInput fileName (content file))
           else if endsWith lowered ".doc" || endsWith lowered ".docx" then
             textContent ← extractTextFromDoc w (content file);
             mret (TextInput fileName textContent)
           else if endsWith lowered ".txt" || endsWith lowered ".md" ||
                   endsWith lowered ".csv" || endsWith lowered ".log" then
             mret (TextInput fileName (slice0 4000 (decode w (content file))))
           else if startsWith (type file) "text/" then
             mret (TextInput fileName (slice0 4000 (decode w (content file))))
           else
             respond (errorResponse
                        "Unsupported file type. Supported: PDF, DOC, DOCX, TXT, MD, CSV, LOG"
                        400 None))
          (λ parseError,
             respond (errorResponse
                        ("Failed to parse file: " +:+ message parseError) 400 None))
  | None => respond (errorResponse "No file provided" 400 None)
  end.

(** The [catch (apiError)] of the processing stage. *)
Definition api_error_response (apiError : JsError) : Response :=
  if bool_decide (status apiError = Some 401) then
    errorResponse "Invalid OpenAI API key. Please check your configuration." 401 None
  else if bool_decide (status apiError = Some 429) then
    errorResponse "OpenAI API rate limit exceeded. Please wait a moment and try again."
      429 (Some (RetryAfterDetails 60))
  else if bool_decide (status apiError = Some 503) then
    errorResponse "OpenAI service is temporarily unavailable. Please try again later."
      503 None
  else
    errorResponse
      ("API Error: " +:+ (if Diarization.is_empty (message apiError)
                          then "Unknown error occurred" else message apiError))
      500 None.

(** The 429 answer of the handler. *)
Definition rate_limited (verdict : RateLimitResult) : Response :=
  mkResponse 429
    [("Retry-After", HeaderNumber (retryAfter verdict));
     ("X-RateLimit-Limit", HeaderText "5");
     ("X-RateLimit-Remaining", HeaderNumber (Some (remaining verdict)));
     ("X-RateLimit-Reset", HeaderIsoTime (resultResetTime verdict))]
    (RateLimitedBody "Too many requests. Please try again later."
       (retryAfter verdict)).

(** The body of the outer [try] of [POST], after the limiter was asked. *)
Definition handle (w : World) (request : Request) (verdict : RateLimitResult)
    : Eff Response :=
  if negb (allowed verdict) then respond (rate_limited verdict) else
  form ← match formData request with
         | inl e => throw e
         | inr form => mret form
         end;
  input ← (let type := match field_type form with
                       | Some type => type
                       | None => EmptyString
                       end in
           if negb (String.eqb type "file" || String.eqb type "url")
           then respond (errorResponse
                           ("Invalid request type. Must be " +:+ quote +:+ "file"
                            +:+ quote +:+ " or " +:+ quote +:+ "url" +:+ quote +:+ ".")
                           400 None)
           else if String.eqb type "url" then read_url w form
           else read_file w form);
  if key_missing (OPENAI_API_KEY w) then
    respond (errorResponse
               "OpenAI API key not configured. Please add your API key to the environment variables."
               500 None)
  else
    try_catch
      (summary ← match input with
                 | PdfInput fileName pdfBuffer => summarize_pdf w fileName pdfBuffer
                 | TextInput fileName textContent => summarize_text w fileName textContent
                 end;
       let fileName := match input with
                       | PdfInput fileName _ | TextInput fileName _ => fileName
                       end in
       mret (json (SummaryBody summary fileName (remaining verdict)) 200))
      (λ apiError, respond (api_error_response apiError)).

(** The limiter's answer to a request of this route. *)
Definition heavy_verdict (now : Z) (request : Request) (logs : Store)
    : RateLimitResult * Store :=
  rateLimit heavy_config now (limiter_request request) None logs.

(** The image of page [i], when its round produced one. *)
Definition rendered (w : World) (buffer : string) (i : nat) : option string :=
  match converter w buffer i with
  | Rendered base64 => Some base64
  | NoPath | RenderFails => None
  end.

(** The three ways a fetch can fail, as the caller is told. *)
Inductive FetchFailure : Type :=
| ConnectionRefused
| NotFound
| OtherFailure.

Definition fetch_failure (error : JsError) : FetchFailure :=
  if bool_decide (code error = Some "ECONNREFUSED") then ConnectionRefused
  else if bool_decide (response_status error = Some 404) then NotFound
  else OtherFailure.

Definition failure_reason (f : FetchFailure) : string :=
  match f with
  | ConnectionRefused => "Cannot connect to the URL"
  | NotFound => "URL not found"
  | OtherFailure => "Failed to fetch URL content"
  end.

(** [export async function POST(request)], at clock reading [now], with
    the limiter store before and after and the external calls made. *)
Definition POST (w : World) (now : Z) (request : Request) (logs : Store)
    : Response * Store * list Call :=
  let '(verdict, logs') := heavy_verdict now request logs in
  let '(calls, outcome) := handle w request verdict in
  let response :=
    match outcome with
    | inr r => r
    | inl (Return r) => r
    | inl (Throw _) =>
        errorResponse "An unexpected error occurred. Please try again." 500
          (if bool_decide (NODE_ENV w = Some "development")
           then Some StackDetails else None)
    end in
  (response, logs', calls).

End DocumentRoute.


(* ===================================================================== *)
(** ** The image route                                                    *)
(* ===================================================================== *)

Module ImageRoute.
Import RateLimiter Route.

Record Request : Type := mkImageRequest {
  limiter_request : NextRequest;
  (** [request.formData()] may reject; the [image] field may be absent *)
  formData : JsError + option DocumentRoute.File
}.

Definition validImageTypes : list string :=
  ["image/jpeg"; "image/jpg"; "image/png"; "image/gif"; "image/webp"].

(** The base64 text of the upload, kept as the bytes themselves. *)
Definition base64 (buffer : string) : string := buffer.

Definition handle (w : DocumentRoute.World) (request : Request) : Eff Response :=
  image ← match formData request with
          | inl e => throw e
          | inr image => mret image
          end;
  match image with
  | None => respond (json (ErrorBody "No image file provided" None) 400)
  | Some imageFile =>
      let type := DocumentRoute.type imageFile in
      let size := DocumentRoute.size imageFile in
      let name := DocumentRoute.name imageFile in
      if negb (existsb (String.eqb type) validImageTypes) then
        respond (json (ErrorBody
                   "Invalid file type. Please upload an image (JPG, PNG, GIF, or WebP)"
                   None) 400)
      else if bool_decide (size > 20 * 1024 * 1024) then
        respond (json (ErrorBody
                   "Image too large. Please upload an image smaller than 20MB"
                   None) 400)
      else
        try_catch
          (if negb (key_missing (DocumentRoute.OPENAI_API_KEY w)) then
             let req := ImageDescription type (base64 (DocumentRoute.content imageFile)) in
             content ← perform (CallOpenAI req) (DocumentRoute.chat w req);
             respond (json (DescriptionBody
                              (FromModel (or_default content "Unable to analyze image")))
                        200)
           else
             respond (json (DescriptionBody (DemoMode type size)) 200))
          (λ apiError,
             if bool_decide (status apiError = Some 401) then
               respond (json (ErrorBody
                          "Invalid OpenAI API key. Please check your configuration."
                          None) 500)
             else if bool_decide (status apiError = Some 429) then
               respond (json (ErrorBody
                          "API rate limit exceeded. Please try again later." None) 429)
             else if bool_decide (code apiError = Some "model_not_found") then
               respond (json (DescriptionBody (ModelMissing name type size)) 200)
             else
               respond (json (DescriptionBody (ServiceUnavailable name type size)) 200))
  end.

(** [export async function POST(request)] of the image route. The
    handler never refers to the limiter module, so the store it finds is
    the store it leaves. *)
Definition POST (w : DocumentRoute.World) (now : Z) (request : Request)
    (logs : Store) : Response * Store * list Call :=
  let '(calls, outcome) := handle w request in
  let response :=
    match outcome with
    | inr r => r
    | inl (Return r) => r
    | inl (Throw _) =>
        json (ErrorBody "Failed to process image. Please try again." None) 500
    end in
  (response, logs, calls).

(** Successive image requests, each at its own clock reading. *)
Fixpoint POST_all (w : DocumentRoute.World) (requests : list (Z * Request))
    (logs : Store) : list Response * Store :=
  match requests with
  | [] => ([], logs)
  | (now, request) :: rest =>
      let '(response, logs1, _) := POST w now request logs in
      let '(responses, logs2) := POST_all w rest logs1 in
      (response :: responses, logs2)
  end.

End ImageRoute.

(* ===================================================================== *)
(** ** Concrete worlds and requests                                       *)
(* ===================================================================== *)

Module Samples.
Import RateLimiter Route DocumentRoute.

(** A deployment with a configured key in which every external call
    succeeds with empty data; the functions below override single
    outcomes. *)
Definition quiet_world : World :=
  {| OPENAI_API_KEY := Some "sk-live";
     NODE_ENV := Some "production";
     url_protocol := λ _, None;
     fetch_body_text := λ _, inr EmptyString;
     mammoth_text := λ _, inr EmptyString;
     decode := λ buffer, buffer;
     prepare_converter := λ _, inr tt;
     parsePDF := λ _, inr (mkPdf EmptyString 1);
     converter := λ _ _, NoPath;
     chat := λ _, inr None |}.

(** The same deployment without a key. *)
Definition demo_world : World :=
  {| OPENAI_API_KEY := None;
     NODE_ENV := Some "production";
     url_protocol := url_protocol quiet_world;
     fetch_body_text := fetch_body_text quiet_world;
     mammoth_text := mammoth_text quiet_world;
     decode := decode quiet_world;
     prepare_converter := prepare_converter quiet_world;
     parsePDF := parsePDF quiet_world;
     converter := converter quiet_world;
     chat := chat quiet_world |}.

Definition client : NextRequest := mkRequest {["x-forwarded-for" := "203.0.113.7"]}.

(** A scanned PDF: one page that does not render and no embedded text. *)
Definition scan_pdf : File := mkFile "scan.pdf" 2048 "application/pdf" "%PDF-1.4".

Definition scan_request : Request :=
  mkDocRequest client (inr (mkForm (Some "file") None (Some (FileValue scan_pdf)))).

(** A twelve-page PDF whose third page fails to render. *)
Definition report_world : World :=
  {| OPENAI_API_KEY := Some "sk-live";
     NODE_ENV := Some "production";
     url_protocol := url_protocol quiet_world;
     fetch_body_text := fetch_body_text quiet_world;
     mammoth_text := mammoth_text quiet_world;
     decode := decode quiet_world;
     prepare_converter := prepare_converter quiet_world;
     parsePDF := λ _, inr (mkPdf "Annual report" 12);
     converter := λ _ i, if (i =? 3)%nat then RenderFails
                         else Rendered ("page-" +:+ pretty i);
     chat := chat quiet_world |}.

(** A PDF whose page tree is empty: the parser counts zero pages. *)
Definition empty_world : World :=
  {| OPENAI_API_KEY := Some "sk-live";
     NODE_ENV := Some "production";
     url_protocol := url_protocol quiet_world;
     fetch_body_text := fetch_body_text quiet_world;
     mammoth_text := mammoth_text quiet_world;
     decode := decode quiet_world;
     prepare_converter := prepare_converter quiet_world;
     parsePDF := λ _, inr (mkPdf EmptyString 0);
     converter := λ _ _, RenderFails;
     chat := chat quiet_world |}.

(** A resolver that knows three URLs, and a network in which one host
    refuses the connection, one page is missing and one request times
    out. *)
Definition web_world : World :=
  {| OPENAI_API_KEY := Some "sk-live";
     NODE_ENV := Some "production";
     url_protocol := λ url,
       if startsWith url "https://" then Some "https:"
       else if startsWith url "http://" then Some "http:"
       else if startsWith url "ftp://" then Some "ftp:"
       else if startsWith url "file://" then Some "file:"
       else None;
     fetch_body_text := λ url,
       if String.eqb url "http://localhost:9/" then
         inl (mkError "connect ECONNREFUSED 127.0.0.1:9" None (Some "ECONNREFUSED") None)
       else if String.eqb url "https://example.org/missing" then
         inl (mkError "Request failed with status code 404" None
                (Some "ERR_BAD_REQUEST") (Some 404))
       else if String.eqb url "https://example.org/slow" then
         inl (mkError "timeout of 10000ms exceeded" None (Some "ECONNABORTED") None)
       else inr "An  example   page with enough text to summarize.";
     mammoth_text := mammoth_text quiet_world;
     decode := decode quiet_world;
     prepare_converter := prepare_converter quiet_world;
     parsePDF := parsePDF quiet_world;
     converter := converter quiet_world;
     chat := λ _, inr (Some "A summary.") |}.

Definition url_request (url : string) : Request :=
  mkDocRequest client (inr (mkForm (Some "url") (Some url) None)).

Definition photo : File := mkFile "photo.png" 4096 "image/png" "PNG".

Definition photo_request : ImageRoute.Request :=
  ImageRoute.mkImageRequest client (inr (Some photo)).

(** Eleven image requests from one address, one second apart. *)
Definition eleven_photos : list (Z * ImageRoute.Request) :=
  map (λ k, (1000 * Z.of_nat k, photo_request)) (seq 1 11).

End Samples.


(* ===================================================================== *)
(** ** The conversation route                                             *)
(* ===================================================================== *)

Module ConversationRoute.
Import Route.

(** The two calls to the inference provider: speech to text on the
    uploaded file, and the chat completion that summarizes a
    transcript. *)
Inductive Call : Type :=
| CallTranscribe (name type : string)
| CallSummarize (transcript : string).

Record World : Type := mkWorld {
  OPENAI_API_KEY : option string;
  (** [new Blob(...)] and [new File(...)] *)
  new_File : JsError + unit;
  (** [openai.audio.transcriptions.create(...).text] for a file given by
      name, type and content *)
  transcribe : string → string → string → JsError + string;
  (** [choices[0]?.message?.content] of the summary request *)
  summarize : string → JsError + option string
}.

Record Request : Type := mkRequest {
  (** [request.formData()] may reject; the [audio] field may be absent *)
  formData : JsError + option DocumentRoute.FormValue
}.

Inductive Body : Type :=
| ErrorBody (error : string)
| ResultBody (transcript : string) (diarization : list Diarization.Segment)
    (summary : string).

Record Response : Type := mkResponse {
  response_code : Z;
  body : Body
}.

Definition validAudioTypes : list string := ["audio/"; "video/webm"; "video/mp4"].

(** The transcript used when transcription fails or no key is set. *)
Definition fallback_transcript : string :=
  "Welcome to our discussion today. I wanted to talk about the new project proposal we've been working on. That sounds great, I'm excited to hear more about it. Can you tell me what the main objectives are? Sure, the primary goal is to improve our customer experience through better technology integration. That makes sense. How long do you think the implementation will take? We're estimating about three months for the initial phase. Perfect, let's discuss the budget requirements next.".

(** The transcript of the [catch (apiError)] block. *)
Definition sample_transcript : string :=
  "This is a sample conversation. Speaker one introduces the topic. Speaker two responds with interest. They discuss various points. The conversation continues with questions and answers. Both speakers contribute equally to the discussion.".

(** How the inner [try] block ends: with both variables assigned, or
    with a [return] from inside it. *)
Inductive Stage : Type :=
| Assigned (transcript summary : string)
| Returned (r : Response).

(** The statement [if (transcript) { try { ... } catch (gptError) { ... } }] *)
Definition summary_of (w : World) (transcript : string) : list Call * string :=
  if Diarization.is_empty transcript then ([], EmptyString)
  else
    ([CallSummarize transcript],
     match summarize w transcript with
     | inr content => or_default content EmptyString
     | inl _ =>
         "A conversation between two speakers discussing project-related topics."
     end).

(** The inner [try { ... } catch (apiError) { ... }] for a valid upload. *)
Definition transcribe_and_summarize (w : World) (audioFile : DocumentRoute.File)
    : list Call * Stage :=
  if negb (key_missing (OPENAI_API_KEY w)) then
    match new_File w with
    | inl _ =>
        ([], Assigned sample_transcript
               "A conversation between two speakers on a professional topic.")
    | inr _ =>
        let call := CallTranscribe (DocumentRoute.name audioFile)
                      (DocumentRoute.type audioFile) in
        match transcribe w (DocumentRoute.name audioFile)
                (DocumentRoute.type audioFile) (DocumentRoute.content audioFile) with
        | inr text =>
            let '(calls, summary) := summary_of w text in
            (call :: calls, Assigned text summary)
        | inl whisperError =>
            if bool_decide (status whisperError = Some 401) then
              ([call],
               Returned (mkResponse 500
                           (ErrorBody "Invalid OpenAI API key. Please check your configuration.")))
            else
              let '(calls, summary) := summary_of w fallback_transcript in
              (call :: calls, Assigned fallback_transcript summary)
        end
    end
  else
    ([], Assigned fallback_transcript
           "A business conversation between two people discussing a new project proposal, including objectives, timeline, and budget considerations.").

(** [export async function POST(request)] of the conversation route. *)
Definition POST (w : World) (request : Request) : Response * list Call :=
  match formData request with
  | inl _ =>
      (mkResponse 500
         (ErrorBody "Failed to process audio. Please ensure the file is a valid audio format."),
       [])
  | inr None => (mkResponse 400 (ErrorBody "No audio file provided"), [])
  | inr (Some (DocumentRoute.TextValue text)) =>
      (* a text has no [type]: [audioFile.type.startsWith] throws, and the
         outer [catch] answers *)
      if Diarization.is_empty text then
        (mkResponse 400 (ErrorBody "No audio file provided"), [])
      else
        (mkResponse 500
           (ErrorBody "Failed to process audio. Please ensure the file is a valid audio format."),
         [])
  | inr (Some (DocumentRoute.FileValue audioFile)) =>
      if negb (existsb (startsWith (DocumentRoute.type audioFile)) validAudioTypes)
      then
        (mkResponse 400
           (ErrorBody "Invalid file type. Please upload an audio file (MP3, WAV, M4A, etc.)"),
         [])
      else
        let '(calls, stage) := transcribe_and_summarize w audioFile in
        match stage with
        | Returned r => (r, calls)
        | Assigned transcript summary =>
            (mkResponse 200
               (ResultBody transcript (Diarization.performDiarization transcript)
                  summary),
             calls)
        end
  end.

End ConversationRoute.

(* ===================================================================== *)
(** ** The history of the page ([page.tsx])                               *)
(* ===================================================================== *)

Module History.

(** What a component hands to [onAnalysis] as its output: a text, or the
    whole answer of the conversation route. *)
Inductive Output : Type :=
| TextOutput (text : string)
| ConversationOutput (transcript : string)
    (diarization : list Diarization.Segment) (summary : string).

(** An entry of the [history] state. [id] is [Date.now()]; the
    [timestamp] field carries the same instant and is left out. *)
Record Entry : Type := mkEntry {
  id : Z;
  type : string;
  input : string;
  output : Output
}.

(** [prev => [newEntry, ...prev].slice(0, 10)] *)
Definition addToHistory (now : Z) (type input : string) (output : Output)
    (prev : list Entry) : list Entry :=
  take 10 (mkEntry now type input output :: prev).

(** The history after a series of analyses, the oldest first in
    [entries]. *)
Definition history_after (entries : list Entry) : list Entry :=
  foldl (λ prev e, addToHistory (id e) (type e) (input e) (output e) prev)
    [] entries.

End History.


(* ===================================================================== *)
(** ** Notions used to state further properties                           *)
(* ===================================================================== *)

Module Notions.
Import RateLimiter.

(** Every stored reset time is at most [now] plus the window length. *)
Definition resets_within (config : RateLimitConfig) (now : Z) (logs : Store) : Prop :=
  ∀ id log, logs !! id = Some log → resetTime log ≤ now + interval config.

(** The last character of the string is white space. *)
Fixpoint ends_in_space (s : string) : bool :=
  match s with
  | EmptyString => false
  | String c s' =>
      match s' with
      | EmptyString => Diarization.is_space c
      | String _ _ => ends_in_space s'
      end
  end.

(** The string without its white-space characters. *)
Fixpoint strip_spaces (s : string) : string :=
  match s with
  | EmptyString => EmptyString
  | String c s' =>
      if Diarization.is_space c then strip_spaces s' else String c (strip_spaces s')
  end.

Fixpoint concat_strings (parts : list string) : string :=
  match parts with
  | [] => EmptyString
  | p :: rest => p +:+ concat_strings rest
  end.

(** A sentence on which only rules (e) and (f) can decide: it has no
    question mark and no word of the four lexicons. *)
Definition neutral (sentence : string) : bool :=
  negb (Diarization.includes_question sentence) &&
  negb (Diarization.contains_marker Diarization.agreement sentence) &&
  negb (Diarization.contains_marker Diarization.disagreement sentence) &&
  negb (Diarization.contains_marker Diarization.first_person sentence) &&
  negb (Diarization.contains_marker Diarization.second_person sentence).

(** Labels in pairs: A, A, B, B, A, A, ... *)
Definition pair_label (i : nat) : Diarization.label :=
  if Nat.even (i / 2) then Diarization.LabelA else Diarization.LabelB.

(** How handler code ends: [T] holds of what it throws, [R] of the
    response it returns early, [V] of the value it falls through with. *)
Definition exits_in {A : Type} (T : Route.JsError → Prop)
    (R : Route.Response → Prop) (V : A → Prop) (m : Route.Eff A) : Prop :=
  match m.2 with
  | inl (Route.Throw e) => T e
  | inl (Route.Return r) => R r
  | inr a => V a
  end.

(** Every white-space character is a plain space, and no two of them
    are neighbours. *)
Fixpoint single_spaced (s : string) : bool :=
  match s with
  | EmptyString => true
  | String c s' =>
      (if Diarization.is_space c
       then Ascii.eqb c " " && negb (Diarization.starts_with_space s')
       else true) && single_spaced s'
  end.

(** The number of calls of a kind in a trace. *)
Definition count_calls (kind : Route.Call → bool) (calls : list Route.Call) : nat :=
  length (List.filter kind calls).

Definition is_inference (c : Route.Call) : bool :=
  match c with Route.CallOpenAI _ => true | _ => false end.

Definition is_render (c : Route.Call) : bool :=
  match c with Route.CallRenderPage _ => true | _ => false end.

Definition is_fetch (c : Route.Call) : bool :=
  match c with Route.CallFetch _ => true | _ => false end.

(** Handler code makes at most [n] calls of a kind, however it ends. *)
Definition at_most {A : Type} (kind : Route.Call → bool) (n : nat)
    (m : Route.Eff A) : Prop :=
  (count_calls kind m.1 ≤ n)%nat.

(** At most [i] inference calls, [r] page renderings and [f] fetches. *)
Definition within {A : Type} (i r f : nat) (m : Route.Eff A) : Prop :=
  at_most is_inference i m ∧ at_most is_render r m ∧ at_most is_fetch f m.

(** Successive requests to the document route, each at its own clock
    reading; the responses with the calls each request made. *)
Fixpoint document_POST_all (w : DocumentRoute.World)
    (requests : list (Z * DocumentRoute.Request)) (logs : Store)
    : list (Route.Response * list Route.Call) * Store :=
  match requests with
  | [] => ([], logs)
  | (now, request) :: rest =>
      let '(response, logs1, calls) := DocumentRoute.POST w now request logs in
      let '(responses, logs2) := document_POST_all w rest logs1 in
      ((response, calls) :: responses, logs2)
  end.

(** The key under which the document route counts a request. *)
Definition document_key (request : DocumentRoute.Request) : string :=
  resolve_id (DocumentRoute.limiter_request request) None.

(** The submission names a file and carries a text that is not empty in
    the [document] field. *)
Definition text_as_document (request : DocumentRoute.Request) : Prop :=
  ∃ form text,
    DocumentRoute.formData request = inr form ∧
    DocumentRoute.field_type form = Some "file" ∧
    DocumentRoute.field_document form = Some (DocumentRoute.TextValue text) ∧
    text ≠ EmptyString.

(** The body carries a stack trace. *)
Definition has_stack (r : Route.Response) : bool :=
  match Route.body r with
  | Route.ErrorBody _ (Some Route.StackDetails) => true
  | _ => false
  end.

End Notions.


(* ===================================================================== *)
(** ** Further worlds                                                     *)
(* ===================================================================== *)

Module MoreSamples.
Import Route DocumentRoute.

(** A deployment whose key the provider rejects: every inference call
    fails with status 401. The PDF has two pages that render and a text
    of sixty characters. *)
Definition locked_world : World :=
  {| OPENAI_API_KEY := Some "sk-revoked";
     NODE_ENV := Some "production";
     url_protocol := λ _, None;
     fetch_body_text := λ _, inr EmptyString;
     mammoth_text := λ _, inr EmptyString;
     decode := λ buffer, buffer;
     prepare_converter := λ _, inr tt;
     parsePDF := λ _,
       inr (mkPdf "Quarterly figures for the northern region, second half-year." 2);
     converter := λ _ i, Rendered ("page-" +:+ pretty i);
     chat := λ _, inl (mkError "Incorrect API key provided" (Some 401) None None) |}.

Definition figures_request : Request :=
  mkDocRequest Samples.client
    (inr (mkForm (Some "file") None
            (Some (FileValue
                     (mkFile "Figures.PDF" 4096 "application/pdf" "%PDF-1.7"))))).

(** A conversation deployment in which transcription times out and the
    summary request succeeds. *)
Definition flaky_speech : ConversationRoute.World :=
  ConversationRoute.mkWorld (Some "sk-live") (inr tt)
    (λ _ _ _, inl (mkError "Request timed out" None (Some "ETIMEDOUT") None))
    (λ _, inr (Some "Two people plan a project.")).

(** A development deployment, and a file submission whose [document]
    field carries pasted text instead of an upload. *)
Definition workbench : World :=
  {| OPENAI_API_KEY := Some "sk-live";
     NODE_ENV := Some "development";
     url_protocol := λ _, None;
     fetch_body_text := λ _, inr EmptyString;
     mammoth_text := λ _, inr EmptyString;
     decode := λ buffer, buffer;
     prepare_converter := λ _, inr tt;
     parsePDF := λ _, inr (mkPdf EmptyString 1);
     converter := λ _ _, NoPath;
     chat := λ _, inr None |}.

Definition pasted_request : Request :=
  mkDocRequest Samples.client
    (inr (mkForm (Some "file") None (Some (TextValue "Minutes of the meeting")))).

Definition memo : File := mkFile "memo.webm" 9000 "video/webm;codecs=opus" "RIFF".

Definition voice_memo : ConversationRoute.Request :=
  ConversationRoute.mkRequest (inr (Some (FileValue memo))).

(** A provider that is over its quota: every inference call fails with
    status 429. *)
Definition throttled_world : World :=
  {| OPENAI_API_KEY := Some "sk-live";
     NODE_ENV := Some "production";
     url_protocol := λ _, None;
     fetch_body_text := λ _, inr EmptyString;
     mammoth_text := λ _, inr EmptyString;
     decode := λ buffer, buffer;
     prepare_converter := λ _, inr tt;
     parsePDF := λ _, inr (mkPdf EmptyString 1);
     converter := λ _ _, NoPath;
     chat := λ _, inl (mkError "Rate limit reached" (Some 429) None None) |}.

End MoreSamples.

(* ===================================================================== *)
(** * Properties of the admission controller                              *)
(* ===================================================================== *)

Section RateLimiterFacts.
Import RateLimiter.

Implicit Types (config : RateLimitConfig) (logs : Store) (request : NextRequest).

(** [ceil_div x d] is the least integer [q] with [x <= q * d]. *)
Lemma ceil_div_bounds (x d : Z) :
  0 < d → (ceil_div x d - 1) * d < x ≤ ceil_div x d * d.
Proof.
  intros Hd. unfold ceil_div.
  pose proof (Z.div_mod (- x) d ltac:(lia)) as Hdm.
  pose proof (Z.mod_pos_bound (- x) d Hd) as Hm.
  nia.
Qed.

Lemma rateLimit_fresh config now request identifier logs :
  window_closed logs (resolve_id request identifier) now →
  rateLimit config now request identifier logs =
    (mkResult true (maxRequests config - 1) (now + interval config) None,
     <[resolve_id request identifier := mkLog 1 (now + interval config)]> logs).
Proof.
  unfold window_closed, rateLimit. cbv zeta.
  destruct (logs !! resolve_id request identifier) as [log|]; [|done].
  intros Hlt. by rewrite bool_decide_eq_true_2.
Qed.

Lemma rateLimit_open config now request identifier logs log :
  logs !! resolve_id request identifier = Some log →
  ¬ resetTime log < now →
  count log < maxRequests config →
  rateLimit config now request identifier logs =
    (mkResult true (maxRequests config - (count log + 1)) (resetTime log) None,
     <[resolve_id request identifier := mkLog (count log + 1) (resetTime log)]> logs).
Proof.
  intros Hl Hopen Hlt. unfold rateLimit. cbv zeta. rewrite Hl.
  rewrite bool_decide_eq_false_2 by done.
  rewrite bool_decide_eq_false_2 by lia. done.
Qed.

Lemma rateLimit_full config now request identifier logs log :
  logs !! resolve_id request identifier = Some log →
  ¬ resetTime log < now →
  maxRequests config ≤ count log →
  rateLimit config now request identifier logs =
    (mkResult false 0 (resetTime log)
       (Some (ceil_div (resetTime log - now) 1000)), logs).
Proof.
  intros Hl Hopen Hge. unfold rateLimit. cbv zeta. rewrite Hl.
  rewrite bool_decide_eq_false_2 by done.
  rewrite bool_decide_eq_true_2 by lia. done.
Qed.

(** Calls inside an open window that still has budget are all allowed
    and each adds one to the counter. *)
Lemma admit_all_open config request identifier times :
  ∀ logs k rt,
    logs !! resolve_id request identifier = Some (mkLog k rt) →
    Forall (λ t, t ≤ rt) times →
    k + Z.of_nat (length times) ≤ maxRequests config →
    ∃ rs logs',
      admit_all config request identifier times logs = (rs, logs') ∧
      Forall (λ r, allowed r = true) rs ∧
      length rs = length times ∧
      logs' !! resolve_id request identifier
        = Some (mkLog (k + Z.of_nat (length times)) rt).
Proof.
  induction times as [|t times IH]; intros logs k rt Hl Ht Hk.
  - exists [], logs. cbn. rewrite Z.add_0_r. done.
  - apply Forall_cons in Ht as [Ht Hts]. cbn [length] in Hk.
    cbn [admit_all].
    rewrite (rateLimit_open _ _ _ _ _ _ Hl) by (cbn; lia). cbn [count resetTime].
    destruct (IH (<[resolve_id request identifier := mkLog (k + 1) rt]> logs)
                (k + 1) rt) as (rs & logs' & Hrun & Hall & Hlen & Hfin).
    { apply lookup_insert_eq. }
    { done. }
    { lia. }
    rewrite Hrun. eexists _, _. split; [done|].
    split; [by constructor|]. split; [cbn; lia|].
    rewrite Hfin. cbn [length]. do 2 f_equal. lia.
Qed.

(** One limiter call, described on the entry of an arbitrary key. *)
Lemma rateLimit_lookup config now request identifier logs :
  ∀ id0,
    (rateLimit config now request identifier logs).2 !! id0 =
      if decide (resolve_id request identifier = id0) then
        match logs !! id0 with
        | Some log =>
            if bool_decide (resetTime log < now)
            then Some (mkLog 1 (now + interval config))
            else if bool_decide (count log >= maxRequests config)
                 then Some log
                 else Some (mkLog (count log + 1) (resetTime log))
        | None => Some (mkLog 1 (now + interval config))
        end
      else logs !! id0.
Proof.
  intros id0. unfold rateLimit. cbv zeta.
  destruct (decide (resolve_id request identifier = id0)) as [->|Hne].
  - destruct (logs !! id0) as [log|] eqn:Hl; cbn.
    + repeat case_bool_decide; cbn; by rewrite ?lookup_insert_eq.
    + by rewrite lookup_insert_eq.
  - destruct (logs !! resolve_id request identifier) as [log|]; cbn.
    + repeat case_bool_decide; cbn; by rewrite ?lookup_insert_ne.
    + by rewrite lookup_insert_ne.
Qed.

Lemma sweep_lookup now logs id0 :
  sweep now logs !! id0 =
    match logs !! id0 with
    | Some log => if bool_decide (resetTime log < now) then None else Some log
    | None => None
    end.
Proof.
  unfold sweep. destruct (logs !! id0) as [log|] eqn:Hl.
  - case_bool_decide as Hlt.
    + apply map_lookup_filter_None. right. intros x Hx. cbn.
      rewrite Hl in Hx. injection Hx as <-. tauto.
    + apply map_lookup_filter_Some. split; [done|]. cbn. done.
  - apply map_lookup_filter_None. left. done.
Qed.

Lemma apply_event_bounded config e logs :
  0 < maxRequests config →
  counts_bounded config logs → counts_bounded config (apply_event config e logs).
Proof.
  intros Hpos Hb id0 log'. destruct e as [now request identifier|now]; cbn [apply_event].
  - rewrite rateLimit_lookup. case_decide as Hid.
    + destruct (logs !! id0) as [log|] eqn:Hl.
      * specialize (Hb _ _ Hl). repeat case_bool_decide; intros [= <-]; cbn; lia.
      * intros [= <-]; cbn; lia.
    + apply Hb.
  - rewrite sweep_lookup. destruct (logs !! id0) as [log|] eqn:Hl; [|done].
    case_bool_decide; [done|]. intros [= <-]. by apply (Hb id0).
Qed.

Lemma run_bounded config es :
  0 < maxRequests config →
  ∀ logs, counts_bounded config logs → counts_bounded config (run config es logs).
Proof.
  intros Hpos. induction es as [|e es IH]; intros logs Hb; [done|].
  cbn. apply IH. by apply apply_event_bounded.
Qed.

(** While the window of a key is open at the time of an event, the event
    keeps the key's reset time and never lowers its counter. *)
Lemma apply_event_monotone config e logs id0 log :
  logs !! id0 = Some log →
  ¬ resetTime log < event_time e →
  ∃ log1, apply_event config e logs !! id0 = Some log1 ∧
    resetTime log1 = resetTime log ∧ count log ≤ count log1.
Proof.
  intros Hl Hopen. destruct e as [now request identifier|now];
    cbn [apply_event event_time] in *.
  - rewrite rateLimit_lookup, Hl. case_decide.
    + rewrite bool_decide_eq_false_2 by done.
      case_bool_decide; eexists; (split; [done|]); cbn; lia.
    + eexists; split; [done|]; lia.
  - rewrite sweep_lookup, Hl. rewrite bool_decide_eq_false_2 by done.
    eexists; split; [done|]; lia.
Qed.

(** C1. A limiter with ceiling [maxRequests] and window [interval]: from
    a closed window, the first [maxRequests] calls made before the reset
    time passes are all allowed; one more call in the same window is
    rejected with [remaining = 0] and
    [retryAfter = ceil((resetTime - now) / 1000)]; the first call after
    the reset time has passed is allowed with
    [remaining = maxRequests - 1] and leaves a fresh window whose count
    is 1. *)
Theorem rateLimit_window_budget config request identifier logs
    (t0 : Z) (times : list Z) (tlast tfresh : Z) :
  0 < maxRequests config →
  window_closed logs (resolve_id request identifier) t0 →
  Z.of_nat (length (t0 :: times)) = maxRequests config →
  Forall (λ t, t ≤ t0 + interval config) times →
  tlast ≤ t0 + interval config →
  t0 + interval config < tfresh →
  ∃ rs logs1 q logs3,
    admit_all config request identifier (t0 :: times) logs = (rs, logs1) ∧
    length rs = length (t0 :: times) ∧
    Forall (λ r, allowed r = true) rs ∧
    rateLimit config tlast request identifier logs1
      = (mkResult false 0 (t0 + interval config) (Some q), logs1) ∧
    q = ceil_div (t0 + interval config - tlast) 1000 ∧
    (q - 1) * 1000 < t0 + interval config - tlast ≤ q * 1000 ∧
    rateLimit config tfresh request identifier logs1
      = (mkResult true (maxRequests config - 1) (tfresh + interval config) None,
         logs3) ∧
    logs3 !! resolve_id request identifier
      = Some (mkLog 1 (tfresh + interval config)).
Proof.
  intros Hpos Hclosed Hlen Htimes Hlast Hfresh.
  set (id := resolve_id request identifier) in *.
  set (rt := t0 + interval config) in *.
  cbn [admit_all]. rewrite (rateLimit_fresh _ _ _ _ _ Hclosed). fold id rt.
  destruct (admit_all_open config request identifier times
              (<[id := mkLog 1 rt]> logs) 1 rt)
    as (rs & logs1 & Hrun & Hall & Hlenrs & Hfin).
  { apply lookup_insert_eq. }
  { done. }
  { cbn [length] in Hlen. lia. }
  rewrite Hrun. fold id in Hfin.
  assert (Hcount : 1 + Z.of_nat (length times) = maxRequests config)
    by (cbn [length] in Hlen; lia).
  rewrite Hcount in Hfin.
  exists (mkResult true (maxRequests config - 1) rt None :: rs), logs1,
    (ceil_div (rt - tlast) 1000),
    (<[id := mkLog 1 (tfresh + interval config)]> logs1).
  split; [done|]. split; [cbn; lia|]. split; [by constructor|].
  split.
  { rewrite (rateLimit_full _ _ _ _ _ _ Hfin) by (cbn; lia). done. }
  split; [done|]. split; [apply ceil_div_bounds; lia|].
  split.
  { apply rateLimit_fresh. unfold window_closed. fold id. rewrite Hfin. done. }
  apply lookup_insert_eq.
Qed.

(** The heavy limiter, five calls from one address inside a minute, a
    sixth one 58.5 s before the reset, and one after the window. *)
Lemma rateLimit_window_budget_witness :
  ∃ rs logs1 q logs3,
    admit_all heavy_config (mkRequest {["x-forwarded-for" := "203.0.113.7"]}) None
      [1000; 1200; 1400; 1600; 1800] ∅ = (rs, logs1) ∧
    length rs = 5%nat ∧
    Forall (λ r, allowed r = true) rs ∧
    rateLimit heavy_config 2500 (mkRequest {["x-forwarded-for" := "203.0.113.7"]})
      None logs1 = (mkResult false 0 61000 (Some q), logs1) ∧
    q = ceil_div (61000 - 2500) 1000 ∧
    (q - 1) * 1000 < 61000 - 2500 ≤ q * 1000 ∧
    rateLimit heavy_config 61001 (mkRequest {["x-forwarded-for" := "203.0.113.7"]})
      None logs1 = (mkResult true 4 121001 None, logs3) ∧
    logs3 !! "203.0.113.7" = Some (mkLog 1 121001).
Proof.
  assert (H1 : 0 < maxRequests heavy_config) by reflexivity.
  assert (H2 : window_closed ∅
                 (resolve_id (mkRequest {["x-forwarded-for" := "203.0.113.7"]}) None)
                 1000) by exact I.
  assert (H3 : Forall (λ t, t ≤ 1000 + interval heavy_config)
                 [1200; 1400; 1600; 1800])
    by (repeat constructor; vm_compute; discriminate).
  assert (H4 : 2500 ≤ 1000 + interval heavy_config) by (vm_compute; discriminate).
  exact (rateLimit_window_budget heavy_config
           (mkRequest {["x-forwarded-for" := "203.0.113.7"]}) None ∅
           1000 [1200; 1400; 1600; 1800] 2500 61001
           H1 H2 eq_refl H3 H4 eq_refl).
Defined.

(** C2. In every store reached from the empty one by limiter calls and
    sweep ticks of one configuration, each counter lies between 1 and
    [maxRequests] (so it is never negative and never above the ceiling),
    and so it does after one more call; that call leaves an entry for its
    identifier which starts at count 1 when it opened a window, keeps the
    reset time and does not lower the count when the window was open,
    and, when the call is allowed, [remaining] is [maxRequests] minus the
    stored count. No event lowers the counter of an open window. *)
Theorem rateLimit_count_invariant config (es : list event)
    now request identifier :
  0 < maxRequests config →
  let logs := run config es requestLogs_init in
  let id := resolve_id request identifier in
  let out := rateLimit config now request identifier logs in
  counts_bounded config logs ∧
  counts_bounded config out.2 ∧
  (∃ log', out.2 !! id = Some log' ∧
     0 ≤ count log' ≤ maxRequests config ∧
     (window_closed logs id now → log' = mkLog 1 (now + interval config)) ∧
     (∀ log, logs !! id = Some log → ¬ resetTime log < now →
        resetTime log' = resetTime log ∧ count log ≤ count log') ∧
     (allowed out.1 = true → remaining out.1 = maxRequests config - count log')) ∧
  (∀ e id0 log, logs !! id0 = Some log → ¬ resetTime log < event_time e →
     ∃ log1, apply_event config e logs !! id0 = Some log1 ∧
       resetTime log1 = resetTime log ∧ count log ≤ count log1).
Proof.
  intros Hpos logs id out.
  assert (Hb : counts_bounded config logs).
  { apply run_bounded; [done|]. intros ? ?. unfold requestLogs_init. by rewrite lookup_empty. }
  assert (Hb' : counts_bounded config out.2).
  { apply (apply_event_bounded config (Admit now request identifier)); done. }
  split; [done|]. split; [done|]. split.
  - subst out. unfold window_closed, rateLimit. cbv zeta. fold id.
    destruct (logs !! id) as [log|] eqn:Hl.
    + specialize (Hb _ _ Hl).
      case_bool_decide as Hexp; [|case_bool_decide as Hfull]; cbn.
      * eexists. rewrite lookup_insert_eq. split; [done|]. cbn.
        split; [lia|]. split; [done|]. split; [|done].
        intros ? [= <-] ?. done.
      * exists log. split; [done|]. split; [lia|]. split; [done|].
        split; [|done]. intros ? [= <-] ?. lia.
      * eexists. rewrite lookup_insert_eq. split; [done|]. cbn.
        split; [lia|]. split; [done|]. split; [|done].
        intros ? [= <-] ?. lia.
    + cbn. eexists. rewrite lookup_insert_eq. split; [done|]. cbn.
      split; [lia|]. split; [done|]. split; [|done]. intros ? [=].
  - intros e id0 log. apply apply_event_monotone.
Qed.

(** The heavy limiter after four calls from one address and a sweep. *)
Lemma rateLimit_count_invariant_witness :
  let request := mkRequest {["x-real-ip" := "198.51.100.4"]} in
  let es := [Admit 10 request None; Admit 20 request None; Sweep 30;
             Admit 40 request None; Admit 50 request None] in
  let out := rateLimit heavy_config 60 request None (run heavy_config es ∅) in
  out.1 = mkResult true 0 60010 None ∧
  out.2 !! "198.51.100.4" = Some (mkLog 5 60010) ∧
  counts_bounded heavy_config out.2.
Proof.
  intros request es out.
  split; [reflexivity|]. split; [reflexivity|].
  exact (proj1 (proj2 (rateLimit_count_invariant heavy_config es 60 request None
                          eq_refl))).
Defined.

Lemma resolve_id_anonymous request :
  no_address_header request → resolve_id request None = "anonymous".
Proof. intros [Hf Hr]. unfold resolve_id. rewrite Hf, Hr. reflexivity. Qed.

Lemma rateLimit_same_id config now request1 identifier1 request2 identifier2 logs :
  resolve_id request1 identifier1 = resolve_id request2 identifier2 →
  rateLimit config now request1 identifier1 logs
    = rateLimit config now request2 identifier2 logs.
Proof. intros Hid. unfold rateLimit. by rewrite Hid. Qed.

(** C9. A call without explicit identifier whose request has neither an
    [x-forwarded-for] nor an [x-real-ip] header is keyed under
    ["anonymous"]; any run of such calls, whoever the callers are, gives
    the results and the store of the same run made by one caller under
    the identifier ["anonymous"]: they all spend one window budget. *)
Theorem anonymous_shared_budget config (calls : list (Z * NextRequest)) logs :
  Forall (λ c, no_address_header c.2) calls →
  Forall (λ c, resolve_id c.2 None = "anonymous") calls ∧
  admit_each config (map (λ c, (c.1, c.2, None)) calls) logs
    = admit_all config (mkRequest ∅) (Some "anonymous") (calls.*1) logs.
Proof.
  intros Hcalls. split.
  - eapply Forall_impl; [exact Hcalls|]. intros c. apply resolve_id_anonymous.
  - revert logs. induction Hcalls as [|[now request] calls Hc _ IH]; intros logs.
    + reflexivity.
    + cbn [map fmap list_fmap admit_each admit_all fst snd].
      rewrite (rateLimit_same_id config now request None
                 (mkRequest ∅) (Some "anonymous")).
      2:{ rewrite resolve_id_anonymous by done. reflexivity. }
      destruct (rateLimit config now (mkRequest ∅) (Some "anonymous") logs)
        as [r logs1].
      rewrite IH. reflexivity.
Qed.

(** Three callers that differ in their user agent and send no address
    header exhaust a ceiling of two between them. *)
Lemma anonymous_shared_budget_witness :
  let calls := [(100, mkRequest {["user-agent" := "curl"]});
                (200, mkRequest {["user-agent" := "firefox"]});
                (300, mkRequest ∅)] in
  Forall (λ c, resolve_id c.2 None = "anonymous") calls ∧
  (admit_each (mkConfig 60000 2) (map (λ c, (c.1, c.2, None)) calls) ∅).1
    = [mkResult true 1 60100 None; mkResult true 0 60100 None;
       mkResult false 0 60100 (Some 60)].
Proof.
  intros calls.
  assert (H : Forall (λ c, no_address_header c.2) calls)
    by (repeat constructor).
  split.
  - exact (proj1 (anonymous_shared_budget (mkConfig 60000 2) calls ∅ H)).
  - rewrite (proj2 (anonymous_shared_budget (mkConfig 60000 2) calls ∅ H)).
    reflexivity.
Defined.

End RateLimiterFacts.


(* ===================================================================== *)
(** * Properties of the speaker attribution engine                        *)
(* ===================================================================== *)

Section DiarizationFacts.
Import Diarization RuleChain.

Implicit Types (s t : string) (c : ascii) (l : label).

Lemma other_speaker_label l :
  other_speaker (Some (label_name l)) = label_name (flip l).
Proof. by destruct l. Qed.

Lemma label_name_eqb l1 l2 :
  String.eqb (label_name l1) (label_name l2) = label_eqb l1 l2.
Proof. by destruct l1, l2. Qed.


Lemma slice_last2_two {A} (a : list A) (x y : A) :
  slice_last2 (a ++ [x; y]) = [x; y].
Proof.
  unfold slice_last2. rewrite length_app. cbn [length].
  replace (length a + 2 - 2)%nat with (length a) by lia.
  by rewrite drop_app_length.
Qed.

(** The fifth test of the callback, on a history whose last segment
    carries the current label. *)
Lemma monopoly_check (older : list Segment) (lastseg : Segment)
    (before : option label) (current : label) (index : nat) :
  speaker lastseg = label_name current →
  match before with
  | None => older = []
  | Some b => ∃ (older' : list Segment) x, older = older' ++ [x] ∧ speaker x = label_name b
  end →
  index ≠ 0%nat →
  (if (0 <? index)%nat &&
      (2 <=? length (List.filter
                       (λ d, String.eqb (speaker d) (label_name current))
                       (older ++ [lastseg])))%nat
   then
     if forallb (λ d, String.eqb (speaker d) (label_name current))
          (slice_last2 (older ++ [lastseg]))
     then other_speaker (Some (label_name current))
     else label_name current
   else label_name current)
  = label_name (if match before with
                   | Some b => label_eqb b current
                   | None => false
                   end
                then flip current else current).
Proof.
  intros Hlast Hbefore Hindex.
  assert (Hself : String.eqb (label_name current) (label_name current) = true)
    by (rewrite label_name_eqb; by destruct current).
  destruct before as [b|].
  - destruct Hbefore as (older' & x & -> & Hx).
    rewrite <- app_assoc. cbn [app]. rewrite slice_last2_two.
    cbn [forallb]. rewrite Hx, Hlast, Hself, label_name_eqb, andb_true_r.
    destruct (label_eqb b current) eqn:Hb.
    + rewrite List.filter_app. cbn [List.filter].
      rewrite Hx, Hlast, Hself, label_name_eqb, Hb.
      rewrite length_app. cbn [length].
      replace (0 <? index)%nat with true by (symmetry; apply Nat.ltb_lt; lia).
      replace (2 <=? _ + 2)%nat with true by (symmetry; apply Nat.leb_le; lia).
      cbn. apply other_speaker_label.
    + by destruct (_ && _).
  - subst older. cbn [app List.filter]. rewrite Hlast, Hself. cbn [length].
    rewrite andb_false_r. done.
Qed.

(** The nested conditional of the callback picks the label that the
    ordered flip decision picks. *)
Lemma rule_chain_label (q ag keep addr mono : bool) l :
  (if q then label_name (flip l)
   else if ag then label_name (flip l)
   else if keep then label_name l
   else if addr then label_name (flip l)
   else label_name (if mono then flip l else l))
  = label_name
      (if (if q then true
           else if ag then true
           else if keep then false
           else if addr then true
           else mono)
       then flip l else l).
Proof. by destruct q, ag, keep, addr. Qed.

Lemma keeps_trim_nonempty s : keeps s = true → is_empty (trim s) = false.
Proof. unfold keeps. by destruct (is_empty (trim s)). Qed.

(** The loop, started after at least one segment, follows the rule chain
    with rule (a) testing for a contained question mark. *)
Lemma forEach_attribute_rest (rest : list string) :
  ∀ (older : list Segment) (lastseg : Segment) (before : option label)
    (current : label) (index : nat),
    Forall (λ s, keeps s = true) rest →
    speaker lastseg = label_name current →
    match before with
    | None => older = []
    | Some b => ∃ (older' : list Segment) x, older = older' ++ [x] ∧ speaker x = label_name b
    end →
    index ≠ 0%nat →
    diarized (forEach rest index (mkLoop (label_name current) (older ++ [lastseg])))
    = older ++ [lastseg] ++
        attribute_rest includes_question before current (text lastseg)
          (map trim rest).
Proof.
  induction rest as [|sentence rest IH];
    intros older lastseg before current index Hkeep Hlast Hbefore Hindex.
  - cbn. done.
  - apply Forall_cons in Hkeep as [Hk Hkeep].
    cbn [forEach map fmap list_fmap attribute_rest].
    unfold visit at 1. cbv zeta. cbn [currentSpeaker diarized].
    rewrite (keeps_trim_nonempty _ Hk).
    replace (index =? 0)%nat with false by (symmetry; apply Nat.eqb_neq; lia).
    rewrite last_snoc. cbn [fmap option_fmap option_map].
    rewrite (monopoly_check older lastseg before current index Hlast Hbefore Hindex).
    rewrite Hlast, other_speaker_label.
    rewrite rule_chain_label.
    unfold rule_flips, contains_marker.
    match goal with
    | |- context [mkSegment (label_name ?l) _] => set (l' := l)
    end.
    set (seg := mkSegment (label_name l') (trim sentence)).
    rewrite (IH (older ++ [lastseg]) seg (Some current) l' (S index)).
    + rewrite <- !app_assoc. done.
    + done.
    + done.
    + eauto.
    + lia.
Qed.

(** *** The split *)

Lemma app_cons_string c (s1 s2 : string) :
  String c s1 +:+ s2 = String c (s1 +:+ s2).
Proof. reflexivity. Qed.

Lemma app_snoc_string (pre : string) c s :
  (pre +:+ String c EmptyString) +:+ s = pre +:+ String c s.
Proof.
  induction pre as [|d pre IH]; [done|]. by rewrite !app_cons_string, IH.
Qed.

Lemma app_empty_string (pre : string) : pre +:+ EmptyString = pre.
Proof.
  induction pre as [|d pre IH]; [done|]. by rewrite app_cons_string, IH.
Qed.

Lemma ends_in_terminal_snoc (pre : string) c :
  ends_in_terminal (pre +:+ String c EmptyString) = is_terminal c.
Proof.
  induction pre as [|d pre IH]; [done|].
  rewrite app_cons_string. cbn [ends_in_terminal]. rewrite IH.
  by destruct pre.
Qed.

Lemma has_boundary_snoc (pre : string) c :
  has_boundary (pre +:+ String c EmptyString)
    = has_boundary pre || (ends_in_terminal pre && is_space c).
Proof.
  induction pre as [|d pre IH]; [done|].
  rewrite app_cons_string. cbn [has_boundary ends_in_terminal]. rewrite IH.
  destruct pre as [|e pre].
  - change (EmptyString +:+ String c EmptyString) with (String c EmptyString).
    cbn. by rewrite orb_false_r.
  - rewrite app_cons_string. by rewrite orb_assoc.
Qed.

(** Both modes of [split_pieces] at once: continuing a sentence [pre],
    and skipping the rest of a separator. *)
Lemma split_pieces_Split s :
  (∀ (pre : string) (after_terminal : bool),
     has_boundary pre = false →
     after_terminal = ends_in_terminal pre →
     Split (pre +:+ s)
       ((pre +:+ (split_pieces after_terminal false s).1)
          :: (split_pieces after_terminal false s).2)) ∧
  (∀ after_terminal : bool,
     ∃ w rest : string,
       s = w +:+ rest ∧ all_space w = true ∧ starts_with_space rest = false ∧
       Split rest ((split_pieces after_terminal true s).1
                     :: (split_pieces after_terminal true s).2)).
Proof.
  induction s as [|c s [IHA IHB]]; split.
  - intros pre after_terminal Hpre _. cbn [split_pieces fst snd].
    by apply Split_last; rewrite app_empty_string.
  - intros after_terminal. exists EmptyString, EmptyString. repeat split.
    by apply Split_last.
  - intros pre after_terminal Hpre Hafter. cbn [split_pieces orb].
    destruct (is_space c && after_terminal) eqn:Hsep.
    + apply andb_true_iff in Hsep as [Hc ->].
      destruct (IHB false) as (w & rest & -> & Hw & Hrest & Hsplit).
      destruct (split_pieces false true (w +:+ rest)) as [piece pieces].
      cbn [fst snd] in *. rewrite app_empty_string.
      apply (Split_more pre (String c w) rest); try done.
      cbn [all_space]. by rewrite Hc, Hw.
    + specialize (IHA (pre +:+ String c EmptyString) (is_terminal c)).
      destruct (split_pieces (is_terminal c) false s) as [piece pieces].
      cbn [fst snd] in *. rewrite !app_snoc_string in IHA. apply IHA.
      * rewrite has_boundary_snoc, Hpre, <- Hafter. cbn [orb].
        by rewrite andb_comm.
      * by rewrite ends_in_terminal_snoc.
  - intros after_terminal. cbn [split_pieces orb].
    destruct (is_space c) eqn:Hc; cbn [andb].
    + destruct (IHB false) as (w & rest & -> & Hw & Hrest & Hsplit).
      destruct (split_pieces false true (w +:+ rest)) as [piece pieces].
      exists (String c w), rest. cbn [all_space]. by rewrite Hc, Hw.
    + specialize (IHA (String c EmptyString) (is_terminal c) eq_refl eq_refl).
      destruct (split_pieces (is_terminal c) false s) as [piece pieces].
      exists EmptyString, (String c s). cbn [starts_with_space]. by rewrite Hc.
Qed.

(** The sentences are the transcript split on terminal punctuation
    followed by white space. *)
Lemma split_sentences_Split t : Split t (split_sentences t).
Proof.
  unfold split_sentences.
  pose proof (proj1 (split_pieces_Split t) EmptyString false eq_refl eq_refl) as H.
  by destruct (split_pieces false false t).
Qed.







Lemma filter_keeps_Forall (pieces : list string) :
  Forall (λ s, keeps s = true) (List.filter keeps pieces).
Proof.
  apply Forall_forall. intros s Hs. apply list_elem_of_In in Hs.
  by apply List.filter_In in Hs as [_ Hs].
Qed.


Lemma attribute_rest_length question before current previous sentences :
  length (attribute_rest question before current previous sentences)
    = length sentences.
Proof.
  revert before current previous.
  induction sentences as [|s sentences IH]; intros before current previous;
    cbn [attribute_rest length]; [done|]. by rewrite IH.
Qed.

(** The code computes the rule chain whose rule (a) looks for a question
    mark anywhere in the previous segment. *)
Lemma performDiarization_attribute t :
  performDiarization t = attribute_on_contained_question t.
Proof.
  unfold performDiarization, attribute_on_contained_question, attribute.
  pose proof (filter_keeps_Forall (split_sentences t)) as Hkeep.
  destruct (List.filter keeps (split_sentences t)) as [|s rest]; [done|].
  apply Forall_cons in Hkeep as [Hk Hkeep].
  cbn [forEach map fmap list_fmap]. unfold visit at 1. cbv zeta.
  rewrite (keeps_trim_nonempty _ Hk). cbn [Nat.eqb diarized app].
  apply (forEach_attribute_rest rest [] (mkSegment "Speaker 1" (trim s))
           None LabelA 1 Hkeep); done.
Qed.









(** C4. The example transcript of the specification. *)
Theorem performDiarization_example :
  performDiarization "Is this ready? Yes it is. I will send it tomorrow."
    = [mkSegment "Speaker 1" "Is this ready?";
       mkSegment "Speaker 2" "Yes it is.";
       mkSegment "Speaker 2" "I will send it tomorrow."].
Proof. reflexivity. Qed.

(** *** Blank transcripts *)

Lemma is_space_not_terminal c : is_space c = true → is_terminal c = false.
Proof.
  destruct c as [[] [] [] [] [] [] [] []]; vm_compute; congruence.
Qed.

Lemma split_pieces_all_space s :
  all_space s = true → split_pieces false false s = (s, []).
Proof.
  induction s as [|c s IH]; [done|]. cbn [all_space split_pieces].
  intros [Hc Hs]%andb_true_iff.
  rewrite andb_false_r, (is_space_not_terminal _ Hc), (IH Hs). done.
Qed.

Lemma trimStart_all_space s : all_space s = true → trimStart s = EmptyString.
Proof.
  induction s as [|c s IH]; [done|]. cbn [all_space trimStart].
  intros [Hc Hs]%andb_true_iff. rewrite Hc. auto.
Qed.

Lemma all_space_trimStart s : all_space (trimStart s) = true → all_space s = true.
Proof.
  induction s as [|c s IH]; [done|]. cbn [trimStart].
  destruct (is_space c) eqn:Hc; [|done].
  intros Hs. cbn [all_space]. by rewrite Hc, IH.
Qed.

Lemma trimEnd_empty s : is_empty (trimEnd s) = true → all_space s = true.
Proof.
  induction s as [|c s IH]; [done|]. cbn [trimEnd all_space].
  destruct (is_space c); cbn [andb]; [|done].
  destruct (is_empty (trimEnd s)); [auto | done].
Qed.

(** A fragment is dropped by the filter exactly when it is blank. *)
Lemma keeps_false_iff s : keeps s = false ↔ all_space s = true.
Proof.
  unfold keeps, trim. split.
  - intros H%negb_false_iff. by apply all_space_trimStart, trimEnd_empty.
  - intros H. by rewrite (trimStart_all_space _ H).
Qed.

(** When every piece of a split is blank, so is the string. *)
Lemma split_pieces_blank s :
  ∀ after_terminal in_separator,
    all_space (split_pieces after_terminal in_separator s).1 = true →
    Forall (λ p, all_space p = true)
      (split_pieces after_terminal in_separator s).2 →
    all_space s = true.
Proof.
  induction s as [|c s IH]; intros after_terminal in_separator; [done|].
  cbn [split_pieces all_space].
  destruct (is_space c) eqn:Hc; cbn [andb].
  - destruct (in_separator || after_terminal) eqn:Hsep.
    + specialize (IH false true).
      destruct (split_pieces false true s) as [piece pieces].
      destruct in_separator; cbn [fst snd].
      * auto.
      * intros _ [Hp Hps]%Forall_cons. auto.
    + specialize (IH (is_terminal c) false).
      destruct (split_pieces (is_terminal c) false s) as [piece pieces].
      cbn [fst snd all_space]. rewrite Hc. cbn [andb]. auto.
  - destruct (split_pieces (is_terminal c) false s) as [piece pieces].
    cbn [fst snd all_space]. rewrite Hc. done.
Qed.

Lemma filter_keeps_nil (pieces : list string) :
  List.filter keeps pieces = [] → Forall (λ p, all_space p = true) pieces.
Proof.
  induction pieces as [|p pieces IH]; [constructor|]. cbn [List.filter].
  destruct (keeps p) eqn:Hp; [done|].
  intros H. constructor; [by apply keeps_false_iff | auto].
Qed.

Lemma performDiarization_length t :
  length (performDiarization t)
    = length (List.filter keeps (split_sentences t)).
Proof.
  rewrite performDiarization_attribute.
  unfold attribute_on_contained_question, attribute.
  destruct (List.filter keeps (split_sentences t)) as [|s rest]; [done|].
  cbn [map fmap list_fmap length].
  by rewrite attribute_rest_length, length_map.
Qed.

(** C10. The engine is defined on every string and returns one segment
    for each fragment that is not blank; on the empty string and on a
    string of white space only it returns the empty sequence, and on no
    other string. *)
Theorem performDiarization_blank t :
  (all_space t = true ↔ performDiarization t = []) ∧
  length (performDiarization t)
    = length (List.filter keeps (split_sentences t)).
Proof.
  split; [|apply performDiarization_length]. split.
  - intros Ht. unfold performDiarization, split_sentences.
    rewrite (split_pieces_all_space _ Ht). cbn [List.filter].
    by rewrite (proj2 (keeps_false_iff t) Ht).
  - intros Hnil. pose proof (performDiarization_length t) as Hlen.
    rewrite Hnil in Hlen. cbn [length] in Hlen.
    symmetry in Hlen. apply length_zero_iff_nil in Hlen.
    apply filter_keeps_nil in Hlen. unfold split_sentences in Hlen.
    pose proof (split_pieces_blank t false false) as Hblank.
    destruct (split_pieces false false t) as [piece pieces].
    apply Forall_cons in Hlen as [Hp Hps]. auto.
Qed.

End DiarizationFacts.


(* ===================================================================== *)
(** * Properties of the document and image routes                         *)
(* ===================================================================== *)

Section RouteFacts.
Import RateLimiter Route DocumentRoute Samples.

Implicit Types (w : World) (logs : Store) (request : Request).

Lemma render_pages_spec w buffer (pages : list nat) :
  render_pages w buffer pages
    = (map CallRenderPage pages, inr (omap (rendered w buffer) pages)).
Proof.
  induction pages as [|i pages IH]; [done|].
  cbn [render_pages]. rewrite IH. cbn. rewrite app_nil_r. unfold rendered.
  by destruct (converter w buffer i).
Qed.

Lemma length_omap_le {A B} (f : A → option B) (xs : list A) :
  (length (omap f xs) ≤ length xs)%nat.
Proof.
  induction xs as [|x xs IH]; cbn; [lia|]. destruct (f x); cbn; lia.
Qed.

Lemma convertPDFToImages_run w buffer (data : PdfData) :
  prepare_converter w buffer = inr tt →
  parsePDF w buffer = inr data →
  let pageCount := if (numpages data =? 0)%nat then 1%nat else numpages data in
  convertPDFToImages w buffer
    = (CallPrepare :: CallParsePDF
         :: map CallRenderPage (seq 1 (Nat.min pageCount 5)),
       inr (omap (rendered w buffer) (seq 1 (Nat.min pageCount 5)), pageCount)).
Proof.
  intros Hprep Hparse pageCount. unfold convertPDFToImages.
  rewrite Hprep, Hparse. cbn [perform mbind eff_bind mret eff_ret].
  rewrite render_pages_spec. cbn [mbind eff_bind mret eff_ret app].
  by rewrite app_nil_r.
Qed.

(** C7, as amended. Once the temporary files are in place and the PDF
    parses, the extractor succeeds whatever the single page rounds do;
    its images are those of the first [min pageCount 5] pages whose
    round produced one, in page order, so there are at most five; the
    page count it reports is the parser's, and 1 when the parser counts
    no page. A twelve-page PDF gives at most five images and a page
    count of 12. *)
Theorem convertPDFToImages_cap w buffer (data : PdfData) :
  prepare_converter w buffer = inr tt →
  parsePDF w buffer = inr data →
  ∃ calls images pageCount,
    convertPDFToImages w buffer = (calls, inr (images, pageCount)) ∧
    pageCount = (if (numpages data =? 0)%nat then 1%nat else numpages data) ∧
    images = omap (rendered w buffer) (seq 1 (Nat.min pageCount 5)) ∧
    (length images ≤ 5)%nat ∧
    (length images ≤ pageCount)%nat ∧
    (if (numpages data =? 12)%nat
     then pageCount = 12%nat ∧ (length images ≤ 5)%nat
     else True).
Proof.
  intros Hprep Hparse. rewrite (convertPDFToImages_run w buffer data Hprep Hparse).
  set (pageCount := if (numpages data =? 0)%nat then 1%nat else numpages data).
  eexists _, _, pageCount. split; [reflexivity|].
  split; [done|]. split; [done|].
  pose proof (length_omap_le (rendered w buffer) (seq 1 (Nat.min pageCount 5)))
    as Hlen.
  rewrite length_seq in Hlen.
  split; [lia|]. split; [lia|].
  destruct (numpages data =? 12)%nat eqn:H12; [|done].
  apply Nat.eqb_eq in H12. split; [subst pageCount; by rewrite H12 | lia].
Qed.

(** The twelve-page report whose third page does not render. *)
Lemma convertPDFToImages_cap_witness :
  ∃ calls,
    convertPDFToImages report_world "report"
      = (calls, inr (["page-1"; "page-2"; "page-4"; "page-5"], 12%nat)).
Proof.
  destruct (convertPDFToImages_cap report_world "report" (mkPdf "Annual report" 12)
              eq_refl eq_refl)
    as (calls & images & pageCount & Hrun & Hcount & Himages & _).
  exists calls. rewrite Hrun, Himages, Hcount. reflexivity.
Defined.

(** C7, as stated, fails on a PDF in which the parser counts no page:
    the extractor reports one page. *)
Lemma convertPDFToImages_zero_pages :
  ∃ data images pageCount,
    parsePDF empty_world "%PDF-1.4" = inr data ∧
    (convertPDFToImages empty_world "%PDF-1.4").2 = inr (images, pageCount) ∧
    numpages data = 0%nat ∧ pageCount = 1%nat ∧ pageCount ≠ numpages data.
Proof.
  exists (mkPdf EmptyString 0), [], 1%nat.
  repeat split; try reflexivity. discriminate.
Qed.

(** *** The URL branch *)

Lemma failure_reason_inj (f g : FetchFailure) :
  failure_reason f = failure_reason g → f = g.
Proof. by destruct f, g. Qed.

(** What [extractTextFromUrl] does when the fetch fails. *)
Lemma extractTextFromUrl_fails w url error :
  fetch_body_text w url = inl error →
  extractTextFromUrl w url
    = ([CallFetch url], inl (Throw (Error (failure_reason (fetch_failure error))))).
Proof.
  intros Hfetch. unfold extractTextFromUrl, fetch_failure. rewrite Hfetch. cbn.
  by repeat case_bool_decide.
Qed.

Lemma eff_ret_bind {A B} (a : A) (f : A → Eff B) : (mret a ≫= f) = f a.
Proof. cbn. by destruct (f a). Qed.

(** The first thing a bind does is what its first part does. *)
Lemma bind_perform_calls {A B} (c : Call) (a : A) (f : A → Eff B) :
  (perform c (inr a) ≫= f) = (c :: (f a).1, (f a).2).
Proof. cbn. by destruct (f a). Qed.

(** C8. An admitted URL submission whose address does not parse, or
    parses with a scheme other than [http:] and [https:], is answered
    with a 400 validation error and no external call at all. With one of
    the two schemes the first call is the fetch, and a failed fetch is
    answered with a 400 error that names one of three reasons, connection
    refused, not found or any other failure, which are pairwise
    different. *)
Theorem POST_url_validation w now request logs (form : FormData) (url : string) :
  allowed (heavy_verdict now request logs).1 = true →
  formData request = inr form →
  field_type form = Some "url" →
  field_url form = Some url →
  Diarization.is_empty url = false →
  match url_protocol w url with
  | None =>
      POST w now request logs
        = (errorResponse "Invalid URL format" 400 None,
           (heavy_verdict now request logs).2, [])
  | Some protocol =>
      if String.eqb protocol "http:" || String.eqb protocol "https:" then
        match fetch_body_text w url with
        | inl error =>
            POST w now request logs
              = (errorResponse
                   ("Failed to fetch URL: " +:+ failure_reason (fetch_failure error))
                   400 None,
                 (heavy_verdict now request logs).2, [CallFetch url])
        | inr _ =>
            ∃ later, (POST w now request logs).2 = CallFetch url :: later
        end
      else
        POST w now request logs
          = (errorResponse
               "Invalid URL protocol. Only HTTP and HTTPS are supported." 400 None,
             (heavy_verdict now request logs).2, [])
  end ∧
  NoDup (failure_reason <$> [ConnectionRefused; NotFound; OtherFailure]).
Proof.
  intros Hallowed Hform Htype Hurl Hnonempty. split.
  - unfold POST. destruct (heavy_verdict now request logs) as [verdict logs'].
    cbn [fst snd] in *. unfold handle. rewrite Hallowed, Hform. cbn [negb].
    cbn [mbind eff_bind mret eff_ret]. rewrite Htype. cbv zeta.
    replace (String.eqb "url" "file") with false by reflexivity.
    replace (String.eqb "url" "url") with true by reflexivity.
    cbn [orb negb]. unfold read_url. rewrite Hurl, Hnonempty.
    destruct (url_protocol w url) as [protocol|]; [|done].
    destruct (String.eqb protocol "http:" || String.eqb protocol "https:"); [|done].
    destruct (fetch_body_text w url) as [error|text] eqn:Hfetch.
    + rewrite (extractTextFromUrl_fails _ _ _ Hfetch). reflexivity.
    + unfold extractTextFromUrl. rewrite Hfetch.
      cbn [perform mbind eff_bind mret eff_ret try_catch app].
      match goal with
      | |- context [if key_missing ?k then ?a else ?b] =>
          destruct (if key_missing k then a else b) as [calls' r]
      end.
      eexists. reflexivity.
  - cbn [fmap list_fmap failure_reason].
    apply (bool_decide_unpack _). by vm_compute.
Qed.

(** An [ftp:] address is refused without any call; a refused connection,
    a missing page and a timeout are told apart. *)
Lemma POST_url_validation_witness :
  POST web_world 1000 (url_request "ftp://example.org/a") ∅
    = (errorResponse "Invalid URL protocol. Only HTTP and HTTPS are supported."
         400 None,
       {["203.0.113.7" := mkLog 1 61000]}, []) ∧
  (POST web_world 1000 (url_request "http://localhost:9/") ∅).1.1
    = errorResponse "Failed to fetch URL: Cannot connect to the URL" 400 None ∧
  (POST web_world 1000 (url_request "https://example.org/missing") ∅).1.1
    = errorResponse "Failed to fetch URL: URL not found" 400 None ∧
  (POST web_world 1000 (url_request "https://example.org/slow") ∅).1.1
    = errorResponse "Failed to fetch URL: Failed to fetch URL content" 400 None.
Proof.
  split; [|split; [|split]].
  - exact (proj1 (POST_url_validation web_world 1000
                    (url_request "ftp://example.org/a") ∅
                    (mkForm (Some "url") (Some "ftp://example.org/a") None)
                    "ftp://example.org/a"
                    eq_refl eq_refl eq_refl eq_refl eq_refl)).
  - exact (f_equal (λ x, x.1.1)
             (proj1 (POST_url_validation web_world 1000
                       (url_request "http://localhost:9/") ∅
                       (mkForm (Some "url") (Some "http://localhost:9/") None)
                       "http://localhost:9/"
                       eq_refl eq_refl eq_refl eq_refl eq_refl))).
  - exact (f_equal (λ x, x.1.1)
             (proj1 (POST_url_validation web_world 1000
                       (url_request "https://example.org/missing") ∅
                       (mkForm (Some "url") (Some "https://example.org/missing") None)
                       "https://example.org/missing"
                       eq_refl eq_refl eq_refl eq_refl eq_refl))).
  - exact (f_equal (λ x, x.1.1)
             (proj1 (POST_url_validation web_world 1000
                       (url_request "https://example.org/slow") ∅
                       (mkForm (Some "url") (Some "https://example.org/slow") None)
                       "https://example.org/slow"
                       eq_refl eq_refl eq_refl eq_refl eq_refl))).
Defined.

(** *** The PDF branch *)

Lemma substring_length_le (n : nat) (s : string) :
  (String.length (String.substring 0 n s) ≤ String.length s)%nat.
Proof.
  revert n. induction s as [|c s IH]; intros [|n]; cbn; try lia.
  specialize (IH n). lia.
Qed.

Lemma omap_all_None {A B} (f : A → option B) (xs : list A) :
  (∀ x, f x = None) → omap f xs = [].
Proof. intros Hf. induction xs as [|x xs IH]; cbn; [done|]. by rewrite Hf. Qed.

Lemma short_text_unusable (text : string) :
  (String.length text ≤ 50)%nat → usable_pdf_text (slice0 8000 text) = false.
Proof.
  intros Hlen. unfold usable_pdf_text, slice0. apply Nat.ltb_ge.
  pose proof (substring_length_le (N.to_nat 8000) text). lia.
Qed.

(** The handler from the point where the form is read, for an uploaded
    file whose name ends in [.pdf]. *)
Lemma handle_pdf_upload w request verdict (form : FormData) (file : File) :
  allowed verdict = true →
  formData request = inr form →
  field_type form = Some "file" →
  field_document form = Some (FileValue file) →
  size file ≤ 10 * 1024 * 1024 →
  endsWith (Diarization.toLowerCase (name file)) ".pdf" = true →
  key_missing (OPENAI_API_KEY w) = false →
  handle w request verdict
    = try_catch
        (summary ← summarize_pdf w (name file) (content file);
         mret (json (SummaryBody summary (name file) (remaining verdict)) 200))
        (λ apiError, respond (api_error_response apiError)).
Proof.
  intros Hallowed Hform Htype Hfile Hsize Hpdf Hkey.
  unfold handle. rewrite Hallowed, Hform. cbn [negb].
  cbn [mbind eff_bind mret eff_ret]. rewrite Htype. cbv zeta.
  replace (String.eqb "file" "file") with true by reflexivity.
  replace (String.eqb "file" "url") with false by reflexivity.
  cbn [orb negb]. unfold read_file. rewrite Hfile.
  rewrite bool_decide_eq_false_2 by lia. cbv zeta. rewrite Hpdf.
  cbn [try_catch mret eff_ret app]. rewrite Hkey.
  change (@pair (list Call) (Exit + Input) [] (inr ?x)) with (mret (M:=Eff) x).
  rewrite eff_ret_bind.
  by destruct (try_catch _ _) as [calls outcome].
Qed.

(** C5 on the code: an admitted PDF upload that renders to no image and
    whose text has at most 50 characters is answered with status 200 and
    a summary that says the PDF could not be processed. *)
Theorem POST_unreadable_pdf w now request logs (form : FormData) (file : File)
    (data : PdfData) :
  allowed (heavy_verdict now request logs).1 = true →
  formData request = inr form →
  field_type form = Some "file" →
  field_document form = Some (FileValue file) →
  size file ≤ 10 * 1024 * 1024 →
  endsWith (Diarization.toLowerCase (name file)) ".pdf" = true →
  key_missing (OPENAI_API_KEY w) = false →
  prepare_converter w (content file) = inr tt →
  parsePDF w (content file) = inr data →
  (∀ i, rendered w (content file) i = None) →
  (String.length (pdf_text data) ≤ 50)%nat →
  (POST w now request logs).1.1
    = json (SummaryBody
              ("Unable to process PDF " +:+ quote +:+ name file +:+ quote +:+
               ". The document may be image-based or corrupted.")
              (name file) (remaining (heavy_verdict now request logs).1))
        200.
Proof.
  intros Hallowed Hform Htype Hfile Hsize Hpdf Hkey Hprep Hparse Hnone Hshort.
  unfold POST. destruct (heavy_verdict now request logs) as [verdict logs'].
  cbn [fst snd] in *.
  rewrite (handle_pdf_upload w request verdict form file) by done.
  unfold summarize_pdf.
  rewrite (convertPDFToImages_run w (content file) data Hprep Hparse).
  rewrite (omap_all_None _ _ Hnone).
  cbn [mbind eff_bind mret eff_ret length Nat.ltb Nat.leb perform].
  rewrite Hparse, (short_text_unusable _ Hshort). reflexivity.
Qed.

(** The scanned one-page PDF. *)
Lemma POST_unreadable_pdf_witness :
  (POST quiet_world 1000 scan_request ∅).1.1
    = json (SummaryBody
              ("Unable to process PDF " +:+ quote +:+ "scan.pdf" +:+ quote +:+
               ". The document may be image-based or corrupted.")
              "scan.pdf" 4)
        200.
Proof.
  assert (Hsize : size scan_pdf ≤ 10 * 1024 * 1024) by (vm_compute; discriminate).
  assert (Hshort : (String.length (pdf_text (mkPdf EmptyString 1)) ≤ 50)%nat)
    by (cbn; lia).
  exact (POST_unreadable_pdf quiet_world 1000 scan_request ∅
           (mkForm (Some "file") None (Some (FileValue scan_pdf))) scan_pdf
           (mkPdf EmptyString 1)
           eq_refl eq_refl eq_refl eq_refl Hsize eq_refl eq_refl eq_refl eq_refl
           (λ _, eq_refl) Hshort).
Defined.

(** The sibling path: when the conversion throws instead of giving no
    image, the same short text is answered with a 400 error. *)
Lemma POST_unreadable_pdf_after_throw w now request logs (form : FormData)
    (file : File) (data : PdfData) (pdfError : JsError) :
  allowed (heavy_verdict now request logs).1 = true →
  formData request = inr form →
  field_type form = Some "file" →
  field_document form = Some (FileValue file) →
  size file ≤ 10 * 1024 * 1024 →
  endsWith (Diarization.toLowerCase (name file)) ".pdf" = true →
  key_missing (OPENAI_API_KEY w) = false →
  prepare_converter w (content file) = inl pdfError →
  parsePDF w (content file) = inr data →
  (String.length (pdf_text data) ≤ 50)%nat →
  (POST w now request logs).1.1
    = errorResponse ("PDF processing failed: " +:+ message pdfError) 400 None.
Proof.
  intros Hallowed Hform Htype Hfile Hsize Hpdf Hkey Hprep Hparse Hshort.
  unfold POST. destruct (heavy_verdict now request logs) as [verdict logs'].
  cbn [fst snd] in *.
  rewrite (handle_pdf_upload w request verdict form file) by done.
  unfold summarize_pdf, convertPDFToImages. rewrite Hprep.
  cbn [mbind eff_bind mret eff_ret perform try_catch].
  rewrite Hparse, (short_text_unusable _ Hshort). reflexivity.
Qed.

(** *** Admission at the routes *)

(** A request the heavy limiter rejects is answered by the document
    route with status 429 and the four rate-limit headers, before the
    form is read and without any external call. *)
Lemma POST_rejected w now request logs :
  allowed (heavy_verdict now request logs).1 = false →
  POST w now request logs
    = (mkResponse 429
         [("Retry-After", HeaderNumber (retryAfter (heavy_verdict now request logs).1));
          ("X-RateLimit-Limit", HeaderText "5");
          ("X-RateLimit-Remaining",
           HeaderNumber (Some (remaining (heavy_verdict now request logs).1)));
          ("X-RateLimit-Reset",
           HeaderIsoTime (resultResetTime (heavy_verdict now request logs).1))]
         (RateLimitedBody "Too many requests. Please try again later."
            (retryAfter (heavy_verdict now request logs).1)),
       (heavy_verdict now request logs).2, []).
Proof.
  intros Hrejected. unfold POST.
  destruct (heavy_verdict now request logs) as [verdict logs'].
  cbn [fst snd] in *. unfold handle. rewrite Hrejected. reflexivity.
Qed.

Lemma image_POST_store w now (request : ImageRoute.Request) logs :
  (ImageRoute.POST w now request logs).1.2 = logs.
Proof. unfold ImageRoute.POST. by destruct (ImageRoute.handle w request). Qed.

Lemma image_POST_headers w now (request : ImageRoute.Request) logs :
  response_headers (ImageRoute.POST w now request logs).1.1 = [].
Proof.
  unfold ImageRoute.POST, ImageRoute.handle.
  destruct (ImageRoute.formData request) as [e|[imageFile|]]; try reflexivity.
  cbn [mbind eff_bind mret eff_ret].
  destruct (negb _); [reflexivity|].
  case_bool_decide; [reflexivity|].
  destruct (key_missing _); cbn [negb]; [reflexivity|].
  destruct (chat w _) as [apiError|content]; cbn; [|reflexivity].
  repeat case_bool_decide; reflexivity.
Qed.

(** C6 on the code. The image route leaves the limiter store as it
    finds it and never sends a rate-limit header. Eleven image requests
    from one address within eleven seconds are all answered with status
    200 and leave the store empty, although the image configuration,
    asked for the same calls, rejects the eleventh; and the presets are
    not tracked apart: five calls admitted by the standard limiter use up
    the budget of the heavy one for the same address. *)
Theorem image_route_without_admission :
  (∀ w now (request : ImageRoute.Request) logs,
     (ImageRoute.POST w now request logs).1.2 = logs ∧
     response_headers (ImageRoute.POST w now request logs).1.1 = []) ∧
  (ImageRoute.POST_all demo_world eleven_photos ∅)
    = (replicate 11 (json (DescriptionBody (DemoMode "image/png" 4096)) 200), ∅) ∧
  (admit_all image_config client None (eleven_photos.*1) ∅).1 !! 10%nat
    = Some (mkResult false 0 61000 (Some 50)) ∧
  (rateLimit heavy_config 6000 client None
     (admit_all standard_config client None [1000; 2000; 3000; 4000; 5000] ∅).2).1
    = mkResult false 0 61000 (Some 55).
Proof.
  split; [|split; [|split]]; try reflexivity.
  intros w now request logs. split; [apply image_POST_store|].
  apply image_POST_headers.
Qed.

End RouteFacts.


(* ===================================================================== *)
(** * More on the admission controller                                    *)
(* ===================================================================== *)

Section RateLimiterMore.
Import RateLimiter Notions.

Implicit Types (config : RateLimitConfig) (logs : Store) (request : NextRequest).

(** The answer of a limiter depends on the store through the entry of
    the caller's key only. *)
Lemma rateLimit_result_entry config now request identifier logs1 logs2 :
  logs1 !! resolve_id request identifier = logs2 !! resolve_id request identifier →
  (rateLimit config now request identifier logs1).1
    = (rateLimit config now request identifier logs2).1.
Proof.
  intros Heq. unfold rateLimit. cbv zeta. rewrite Heq.
  destruct (logs2 !! resolve_id request identifier) as [log|]; [|done].
  by repeat case_bool_decide.
Qed.

(** X1. A sweep is invisible to admission: for a clock that does not run
    backwards and a window length that is not negative, a limiter call
    after a sweep gives the answer it gives without the sweep, and the
    store it leaves is the swept store of the call without the sweep. *)
Theorem sweep_transparent config now now2 request identifier logs :
  now ≤ now2 →
  0 ≤ interval config →
  rateLimit config now2 request identifier (sweep now logs)
    = ((rateLimit config now2 request identifier logs).1,
       sweep now (rateLimit config now2 request identifier logs).2).
Proof.
  intros Hclock Hinterval.
  rewrite (surjective_pairing (rateLimit _ _ _ _ (sweep now logs))). f_equal.
  - unfold rateLimit. cbv zeta. rewrite sweep_lookup.
    destruct (logs !! resolve_id request identifier) as [log|]; [|done].
    case_bool_decide as Hswept; cbn.
    + rewrite bool_decide_eq_true_2 by lia. done.
    + by repeat case_bool_decide.
  - apply map_eq. intros id0.
    rewrite sweep_lookup, !rateLimit_lookup, sweep_lookup.
    case_decide as Hid; [|done].
    destruct (logs !! id0) as [log|]; cbn.
    + repeat (case_bool_decide; cbn); try done; lia.
    + rewrite bool_decide_eq_false_2 by lia. done.
Qed.

Lemma sweep_transparent_witness :
  let request := mkRequest {["x-real-ip" := "198.51.100.4"]} in
  let logs := {["198.51.100.4" := mkLog 5 900; "192.0.2.1" := mkLog 2 70000]} in
  rateLimit heavy_config 1500 request None (sweep 1000 logs)
    = (mkResult true 4 61500 None,
       {["198.51.100.4" := mkLog 1 61500; "192.0.2.1" := mkLog 2 70000]}).
Proof.
  intros request logs.
  assert (H1 : 1000 ≤ 1500) by lia.
  assert (H2 : 0 ≤ interval heavy_config) by (cbn; lia).
  rewrite (sweep_transparent heavy_config 1000 1500 request None logs H1 H2).
  reflexivity.
Defined.

(** X2. Callers with different keys do not see each other: two calls,
    through any two configurations and at any two times, give the same
    two answers and the same store in either order. *)
Theorem rateLimit_commute config1 config2 now1 now2
    request1 identifier1 request2 identifier2 logs :
  resolve_id request1 identifier1 ≠ resolve_id request2 identifier2 →
  let first1 := rateLimit config1 now1 request1 identifier1 logs in
  let then2 := rateLimit config2 now2 request2 identifier2 first1.2 in
  let first2 := rateLimit config2 now2 request2 identifier2 logs in
  let then1 := rateLimit config1 now1 request1 identifier1 first2.2 in
  first1.1 = then1.1 ∧ then2.1 = first2.1 ∧ then2.2 = then1.2.
Proof.
  intros Hne first1 then2 first2 then1. split; [|split].
  - apply rateLimit_result_entry. subst first2.
    rewrite rateLimit_lookup. by rewrite decide_False by done.
  - apply rateLimit_result_entry. subst first1.
    rewrite rateLimit_lookup. by rewrite decide_False.
  - apply map_eq. intros id0. subst then2 then1 first1 first2.
    rewrite !rateLimit_lookup.
    destruct (decide (resolve_id request2 identifier2 = id0)) as [H2|H2];
      destruct (decide (resolve_id request1 identifier1 = id0)) as [H1|H1];
      try done.
    congruence.
Qed.

Lemma rateLimit_commute_witness :
  let alice := mkRequest {["x-forwarded-for" := "203.0.113.7"]} in
  let bob := mkRequest {["x-real-ip" := "198.51.100.4"]} in
  let logs := {["203.0.113.7" := mkLog 5 61000]} in
  (rateLimit heavy_config 2000 alice None logs).1
    = (rateLimit heavy_config 2000 alice None
         (rateLimit standard_config 1500 bob None logs).2).1.
Proof.
  intros alice bob logs.
  assert (Hne : resolve_id alice None ≠ resolve_id bob None) by discriminate.
  exact (proj1 (rateLimit_commute heavy_config standard_config 2000 1500
                  alice None bob None logs Hne)).
Defined.

(** X3. A rejected call is not charged: it leaves the store as it is,
    and it is made inside an open window whose count has reached the
    ceiling; it reports the stored reset time, [remaining = 0] and a
    waiting time that is not negative. *)
Theorem rateLimit_rejection config now request identifier logs :
  allowed (rateLimit config now request identifier logs).1 = false →
  (rateLimit config now request identifier logs).2 = logs ∧
  remaining (rateLimit config now request identifier logs).1 = 0 ∧
  ∃ log q,
    logs !! resolve_id request identifier = Some log ∧
    now ≤ resetTime log ∧
    maxRequests config ≤ count log ∧
    resultResetTime (rateLimit config now request identifier logs).1
      = resetTime log ∧
    retryAfter (rateLimit config now request identifier logs).1 = Some q ∧
    0 ≤ q.
Proof.
  unfold rateLimit. cbv zeta.
  destruct (logs !! resolve_id request identifier) as [log|]; [|done].
  case_bool_decide as Hexp; [done|]. case_bool_decide as Hfull; [|done].
  cbn. intros _. split; [done|]. split; [done|].
  exists log, (ceil_div (resetTime log - now) 1000).
  repeat split; try done; try lia.
  pose proof (ceil_div_bounds (resetTime log - now) 1000 ltac:(lia)). lia.
Qed.

Lemma rateLimit_rejection_witness :
  let request := mkRequest {["x-forwarded-for" := "203.0.113.7"]} in
  let logs := {["203.0.113.7" := mkLog 5 61000]} in
  (rateLimit heavy_config 2000 request None logs).2 = logs.
Proof.
  intros request logs.
  exact (proj1 (rateLimit_rejection heavy_config 2000 request None logs eq_refl)).
Defined.

(** X4. The key of a call is never the empty string. An explicit
    identifier that is not empty is the key; without one, a non-empty
    [x-forwarded-for] header is, before [x-real-ip]; empty values count
    as absent. *)
Theorem resolve_id_precedence request (identifier : option string) :
  resolve_id request identifier ≠ "" ∧
  resolve_id request identifier =
    match identifier with
    | Some (String c s) => String c s
    | _ =>
        match headers request !! "x-forwarded-for" with
        | Some (String c s) => String c s
        | _ =>
            match headers request !! "x-real-ip" with
            | Some (String c s) => String c s
            | _ => "anonymous"
            end
        end
    end.
Proof.
  unfold resolve_id, js_or, truthy.
  destruct identifier as [[|c s]|];
    destruct (headers request !! "x-forwarded-for") as [[|c1 s1]|];
    destruct (headers request !! "x-real-ip") as [[|c2 s2]|];
    by cbn.
Qed.

Lemma admit_all_app config request identifier (times1 times2 : list Z) logs :
  admit_all config request identifier (times1 ++ times2) logs
    = (let '(rs1, logs1) := admit_all config request identifier times1 logs in
       let '(rs2, logs2) := admit_all config request identifier times2 logs1 in
       (rs1 ++ rs2, logs2)).
Proof.
  revert logs. induction times1 as [|t times1 IH]; intros logs.
  - cbn. by destruct (admit_all _ _ _ times2 logs).
  - cbn [app admit_all].
    destruct (rateLimit config t request identifier logs) as [r logs1].
    rewrite IH.
    destruct (admit_all config request identifier times1 logs1) as [rs1 logs2].
    by destruct (admit_all config request identifier times2 logs2).
Qed.

(** A whole window spent at once: from a closed window, [maxRequests]
    calls that all come before the reset time are allowed and leave the
    counter at the ceiling. *)
Lemma admit_all_window config request identifier logs (t0 : Z) (times : list Z) :
  window_closed logs (resolve_id request identifier) t0 →
  Z.of_nat (length (t0 :: times)) ≤ maxRequests config →
  Forall (λ t, t ≤ t0 + interval config) times →
  ∃ rs logs',
    admit_all config request identifier (t0 :: times) logs = (rs, logs') ∧
    Forall (λ r, allowed r = true) rs ∧
    logs' !! resolve_id request identifier
      = Some (mkLog (Z.of_nat (length (t0 :: times))) (t0 + interval config)).
Proof.
  intros Hclosed Hlen Htimes. cbn [admit_all].
  rewrite (rateLimit_fresh _ _ _ _ _ Hclosed).
  destruct (admit_all_open config request identifier times
              (<[resolve_id request identifier := mkLog 1 (t0 + interval config)]> logs)
              1 (t0 + interval config))
    as (rs & logs' & Hrun & Hall & _ & Hfin).
  { apply lookup_insert_eq. }
  { done. }
  { cbn [length] in Hlen. lia. }
  rewrite Hrun. eexists _, _. split; [done|]. split; [by constructor|].
  rewrite Hfin. cbn [length]. do 2 f_equal. lia.
Qed.

Lemma admit_all_length config request identifier (times : list Z) logs :
  length (admit_all config request identifier times logs).1 = length times.
Proof.
  revert logs. induction times as [|t times IH]; intros logs; [done|].
  cbn [admit_all].
  destruct (rateLimit config t request identifier logs) as [r logs1].
  specialize (IH logs1).
  destruct (admit_all config request identifier times logs1) as [rs logs2].
  cbn in *. by rewrite IH.
Qed.

(** X5. The window is fixed, not sliding: from a closed window, one call
    at [t0], [maxRequests - 1] calls in the last millisecond of the
    window and [maxRequests] calls in the millisecond after it are all
    allowed, so [2 * maxRequests - 1] calls pass within two
    milliseconds. *)
Theorem fixed_window_burst config request identifier logs (t0 : Z) :
  0 < maxRequests config →
  0 ≤ interval config →
  window_closed logs (resolve_id request identifier) t0 →
  let n := Z.to_nat (maxRequests config) in
  let times := (t0 :: replicate (n - 1) (t0 + interval config))
                 ++ (t0 + interval config + 1
                       :: replicate (n - 1) (t0 + interval config + 1)) in
  Forall (λ r, allowed r = true)
    (admit_all config request identifier times logs).1 ∧
  length times = (2 * n)%nat ∧
  Forall (λ t, t0 + interval config ≤ t ≤ t0 + interval config + 1)
    (drop 1 times).
Proof.
  intros Hpos Hinterval Hclosed n times. split; [|split].
  - subst times. rewrite admit_all_app.
    destruct (admit_all_window config request identifier logs t0
                (replicate (n - 1) (t0 + interval config)))
      as (rs1 & logs1 & Hrun1 & Hall1 & Hfin1).
    { done. }
    { cbn [length]. rewrite length_replicate. lia. }
    { apply Forall_replicate. lia. }
    rewrite Hrun1.
    destruct (admit_all_window config request identifier logs1
                (t0 + interval config + 1)
                (replicate (n - 1) (t0 + interval config + 1)))
      as (rs2 & logs2 & Hrun2 & Hall2 & _).
    { unfold window_closed. rewrite Hfin1. cbn. lia. }
    { cbn [length]. rewrite length_replicate. lia. }
    { apply Forall_replicate. lia. }
    rewrite Hrun2. cbn [fst]. by apply Forall_app.
  - subst times. rewrite length_app. cbn [length].
    rewrite !length_replicate. lia.
  - subst times. cbn [app drop]. apply Forall_app. split.
    + apply Forall_replicate. lia.
    + constructor; [lia|]. apply Forall_replicate. lia.
Qed.

Lemma fixed_window_burst_witness :
  let request := mkRequest {["x-forwarded-for" := "203.0.113.7"]} in
  Forall (λ r, allowed r = true)
    (admit_all heavy_config request None
       [1000; 61000; 61000; 61000; 61000; 61001; 61001; 61001; 61001; 61001]
       ∅).1.
Proof.
  intros request.
  assert (H1 : 0 < maxRequests heavy_config) by reflexivity.
  assert (H2 : 0 ≤ interval heavy_config) by (cbn; lia).
  exact (proj1 (fixed_window_burst heavy_config request None ∅ 1000 H1 H2 I)).
Defined.

(** X6. The limiters that [rateLimit] builds count in one store: calls
    admitted through one configuration are counted by every other. After
    [k] calls through [configA] in a window it opened, a call for the
    same key through a configuration whose ceiling is at most [k] is
    rejected until the reset time of that window. *)
Theorem presets_share_counts configA configB request identifier logs
    (t0 : Z) (times : list Z) (t : Z) :
  window_closed logs (resolve_id request identifier) t0 →
  Z.of_nat (length (t0 :: times)) ≤ maxRequests configA →
  Forall (λ t', t' ≤ t0 + interval configA) times →
  t ≤ t0 + interval configA →
  maxRequests configB ≤ Z.of_nat (length (t0 :: times)) →
  let after := admit_all configA request identifier (t0 :: times) logs in
  Forall (λ r, allowed r = true) after.1 ∧
  rateLimit configB t request identifier after.2
    = (mkResult false 0 (t0 + interval configA)
         (Some (ceil_div (t0 + interval configA - t) 1000)),
       after.2).
Proof.
  intros Hclosed HlenA Htimes Ht HlenB after.
  destruct (admit_all_window configA request identifier logs t0 times)
    as (rs & logs' & Hrun & Hall & Hfin); try done.
  subst after. rewrite Hrun. cbn [fst snd]. split; [done|].
  rewrite (rateLimit_full _ _ _ _ _ _ Hfin); cbn [count resetTime]; [done|lia..].
Qed.

Lemma presets_share_counts_witness :
  let request := mkRequest {["x-forwarded-for" := "203.0.113.7"]} in
  rateLimit heavy_config 6000 request None
    (admit_all standard_config request None [1000; 2000; 3000; 4000; 5000] ∅).2
  = (mkResult false 0 61000 (Some 55),
     {["203.0.113.7" := mkLog 5 61000]}).
Proof.
  intros request.
  assert (H2 : Z.of_nat (length [1000; 2000; 3000; 4000; 5000])
               ≤ maxRequests standard_config) by (cbn; lia).
  assert (H3 : Forall (λ t', t' ≤ 1000 + interval standard_config)
                 [2000; 3000; 4000; 5000])
    by (repeat constructor; cbn; lia).
  assert (H4 : 6000 ≤ 1000 + interval standard_config) by (cbn; lia).
  assert (H5 : maxRequests heavy_config
               ≤ Z.of_nat (length [1000; 2000; 3000; 4000; 5000]))
    by (cbn; lia).
  exact (proj2 (presets_share_counts standard_config heavy_config request None ∅
                  1000 [2000; 3000; 4000; 5000] 6000 I H2 H3 H4 H5)).
Defined.

Lemma apply_event_resets config e now logs :
  event_time e ≤ now →
  resets_within config now logs → resets_within config now (apply_event config e logs).
Proof.
  intros Ht Hr id0 log'. destruct e as [t request identifier|t];
    cbn [apply_event event_time] in *.
  - rewrite rateLimit_lookup. case_decide; [|apply Hr].
    destruct (logs !! id0) as [log|] eqn:Hl.
    + specialize (Hr _ _ Hl).
      repeat case_bool_decide; intros [= <-]; cbn; lia.
    + intros [= <-]; cbn; lia.
  - rewrite sweep_lookup. destruct (logs !! id0) as [log|] eqn:Hl; [|done].
    case_bool_decide; [done|]. intros [= <-]. by apply (Hr id0).
Qed.

Lemma run_resets config es now :
  Forall (λ e, event_time e ≤ now) es →
  ∀ logs, resets_within config now logs → resets_within config now (run config es logs).
Proof.
  induction 1 as [|e es He _ IH]; intros logs Hr; [done|].
  cbn. apply IH. by apply apply_event_resets.
Qed.

Lemma ceil_div_mono (x y d : Z) : 0 < d → x ≤ y → ceil_div x d ≤ ceil_div y d.
Proof.
  intros Hd Hxy. unfold ceil_div.
  pose proof (Z.div_le_mono (- y) (- x) d Hd ltac:(lia)). lia.
Qed.

(** X7. Nobody is told to wait longer than a window: in a store built
    from the empty one by calls and sweeps of one configuration, none of
    them later than [now], a call rejected at [now] reports a waiting
    time between 0 and [ceil(interval / 1000)] seconds. *)
Theorem retryAfter_bounded config (es : list event) now request identifier :
  Forall (λ e, event_time e ≤ now) es →
  allowed (rateLimit config now request identifier
             (run config es requestLogs_init)).1 = false →
  ∃ q, retryAfter (rateLimit config now request identifier
                     (run config es requestLogs_init)).1 = Some q ∧
       0 ≤ q ≤ ceil_div (interval config) 1000.
Proof.
  intros Hes Hrejected.
  assert (Hr : resets_within config now (run config es requestLogs_init)).
  { apply run_resets; [done|]. intros ? ?. unfold requestLogs_init.
    by rewrite lookup_empty. }
  revert Hrejected. unfold rateLimit. cbv zeta.
  destruct (run config es requestLogs_init !! resolve_id request identifier)
    as [log|] eqn:Hl; [|done].
  specialize (Hr _ _ Hl).
  case_bool_decide as Hexp; [done|]. case_bool_decide as Hfull; [|done].
  cbn. intros _. eexists. split; [done|]. split.
  - pose proof (ceil_div_bounds (resetTime log - now) 1000 ltac:(lia)). lia.
  - apply ceil_div_mono; lia.
Qed.

Lemma retryAfter_bounded_witness :
  let request := mkRequest {["x-forwarded-for" := "203.0.113.7"]} in
  let es := [Admit 1000 request None; Admit 1100 request None;
             Admit 1200 request None; Sweep 1250; Admit 1300 request None;
             Admit 1400 request None] in
  ∃ q, retryAfter (rateLimit heavy_config 1500 request None
                     (run heavy_config es requestLogs_init)).1 = Some q ∧
       0 ≤ q ≤ 60.
Proof.
  intros request es.
  assert (H : Forall (λ e, event_time e ≤ 1500) es)
    by (repeat constructor; cbn; lia).
  exact (retryAfter_bounded heavy_config es 1500 request None H eq_refl).
Defined.

End RateLimiterMore.


(* ===================================================================== *)
(** * More on the speaker attribution engine                              *)
(* ===================================================================== *)

Section DiarizationMore.
Import Diarization Notions.

Implicit Types (s t : string) (c : ascii) (l : label).

Lemma attribute_rest_texts question before current previous sentences :
  map text (attribute_rest question before current previous sentences) = sentences.
Proof.
  revert before current previous.
  induction sentences as [|s sentences IH]; intros before current previous;
    [done|].
  cbn [attribute_rest map fmap list_fmap text]. f_equal. apply IH.
Qed.

(** The texts of the segments are the trimmed fragments that the filter
    keeps, in order. *)
Lemma performDiarization_texts t :
  map text (performDiarization t)
    = map trim (List.filter keeps (split_sentences t)).
Proof.
  rewrite performDiarization_attribute.
  unfold attribute_on_contained_question, attribute.
  destruct (map trim _) as [|s rest]; [done|].
  cbn [map fmap list_fmap text]. f_equal. apply attribute_rest_texts.
Qed.

Lemma trimStart_no_space s : starts_with_space (trimStart s) = false.
Proof.
  induction s as [|c s IH]; [done|]. cbn [trimStart].
  destruct (is_space c) eqn:Hc; [done|]. cbn. done.
Qed.

Lemma trimEnd_starts s :
  starts_with_space s = false → starts_with_space (trimEnd s) = false.
Proof.
  destruct s as [|c s]; [done|]. cbn [starts_with_space trimEnd].
  intros Hc. rewrite Hc. cbn. done.
Qed.

Lemma trimEnd_no_space s : ends_in_space (trimEnd s) = false.
Proof.
  induction s as [|c s IH]; [done|]. cbn [trimEnd].
  destruct (is_space c) eqn:Hc; cbn [andb].
  - destruct (trimEnd s) as [|d r] eqn:Ht; [done|]. cbn [is_empty].
    exact IH.
  - destruct (trimEnd s) as [|d r] eqn:Ht; [cbn; done|exact IH].
Qed.

(** X8. The texts of the segments are the trimmed non-blank sentences of
    the transcript, in order: no segment has an empty text or white
    space at either end of it. *)
Theorem performDiarization_texts_trimmed t :
  map text (performDiarization t)
    = map trim (List.filter keeps (split_sentences t)) ∧
  Forall (λ d, is_empty (text d) = false ∧
               starts_with_space (text d) = false ∧
               ends_in_space (text d) = false)
    (performDiarization t).
Proof.
  split; [apply performDiarization_texts|].
  apply (Forall_fmap text (λ x, is_empty x = false ∧ starts_with_space x = false
                                 ∧ ends_in_space x = false)).
  change (list_fmap Segment string text) with (map text).
  rewrite performDiarization_texts.
  pose proof (filter_keeps_Forall (split_sentences t)) as Hkeep.
  induction Hkeep as [|s rest Hs _ IH]; [constructor|].
  cbn [map fmap list_fmap]. constructor; [|exact IH].
  split; [by apply keeps_trim_nonempty|]. split.
  - apply trimEnd_starts, trimStart_no_space.
  - apply trimEnd_no_space.
Qed.

Lemma label_name_flip l : label_name l ≠ label_name (flip l).
Proof. by destruct l. Qed.

(** In the rule chain, whatever follows a segment with a question mark
    carries the other label. *)
Lemma attribute_rest_question before current previous sentences :
  ∀ (done_ : list Segment) (d1 d2 : Segment) (todo : list Segment),
    mkSegment (label_name current) previous
      :: attribute_rest includes_question before current previous sentences
      = done_ ++ d1 :: d2 :: todo →
    includes_question (text d1) = true →
    speaker d1 ≠ speaker d2.
Proof.
  revert before current previous.
  induction sentences as [|s sentences IH];
    intros before current previous done_ d1 d2 todo Heq Hq.
  - cbn in Heq. destruct done_ as [|? [|? ?]]; discriminate.
  - cbn [attribute_rest] in Heq. destruct done_ as [|d0 done_].
    + cbn [app] in Heq. injection Heq as <- <- _. cbn [text speaker] in *.
      unfold rule_flips. rewrite Hq. apply label_name_flip.
    + cbn [app] in Heq. injection Heq as _ Heq.
      by apply (IH _ _ _ _ _ _ _ Heq).
Qed.

(** X9. A question is never answered by the one who asked it: when a
    segment of the output contains a question mark, the segment after it
    has the other speaker. *)
Theorem question_changes_speaker t (done_ : list Segment) (d1 d2 : Segment)
    (todo : list Segment) :
  performDiarization t = done_ ++ d1 :: d2 :: todo →
  includes_question (text d1) = true →
  speaker d1 ≠ speaker d2.
Proof.
  rewrite performDiarization_attribute.
  unfold attribute_on_contained_question, attribute.
  destruct (map trim _) as [|s rest].
  - intros Heq. destruct done_; discriminate.
  - apply attribute_rest_question.
Qed.

Lemma question_changes_speaker_witness :
  speaker (mkSegment "Speaker 1" "Really?!") ≠ speaker (mkSegment "Speaker 2" "Fine.").
Proof.
  assert (H : performDiarization "Go. Really?! Fine."
              = [mkSegment "Speaker 1" "Go."]
                  ++ mkSegment "Speaker 1" "Really?!"
                  :: mkSegment "Speaker 2" "Fine." :: []) by reflexivity.
  exact (question_changes_speaker "Go. Really?! Fine."
           [mkSegment "Speaker 1" "Go."]
           (mkSegment "Speaker 1" "Really?!")
           (mkSegment "Speaker 2" "Fine.") [] H eq_refl).
Defined.

Lemma pair_label_step (i : nat) : pair_label (S (S i)) = flip (pair_label i).
Proof.
  unfold pair_label.
  replace (S (S i)) with (i + 1 * 2)%nat by lia.
  rewrite Nat.div_add by lia. rewrite Nat.add_1_r, Nat.even_succ.
  rewrite <- Nat.negb_even. by destruct (Nat.even (i / 2)).
Qed.

Lemma neutral_rule_flips previous before current sentence :
  neutral previous = true → neutral sentence = true →
  rule_flips includes_question previous before current sentence
    = match before with
      | Some b => label_eqb b current
      | None => false
      end.
Proof.
  unfold neutral, rule_flips.
  intros Hp Hs. repeat (apply andb_true_iff in Hp as [Hp ?]).
  repeat (apply andb_true_iff in Hs as [Hs ?]).
  repeat match goal with
         | H : negb ?b = true |- _ => apply negb_true_iff in H; rewrite ?H
         end.
  done.
Qed.

(** On neutral sentences the label of a sentence is the other one than
    that of the sentence two places before. *)
Lemma attribute_rest_neutral (sentences : list string) :
  ∀ (k : nat) (previous : string),
    neutral previous = true →
    Forall (λ s, neutral s = true) sentences →
    map speaker
      (attribute_rest includes_question (Some (pair_label k)) (pair_label (S k))
         previous sentences)
    = map (λ i, label_name (pair_label i)) (seq (S (S k)) (length sentences)).
Proof.
  induction sentences as [|s sentences IH]; intros k previous Hp Hs; [done|].
  apply Forall_cons in Hs as [Hs Hss].
  cbn [attribute_rest map fmap list_fmap length seq speaker].
  rewrite (neutral_rule_flips _ _ _ _ Hp Hs).
  assert (Hnext : (if label_eqb (pair_label k) (pair_label (S k))
                   then flip (pair_label (S k)) else pair_label (S k))
                  = pair_label (S (S k))).
  { rewrite pair_label_step.
    by destruct (pair_label k), (pair_label (S k)). }
  rewrite Hnext. f_equal. apply (IH (S k) s Hs Hss).
Qed.

(** X10. Talk without cues alternates in pairs: when no segment
    contains a question mark or a word of the four lexicons, the
    speakers are 1, 1, 2, 2, 1, 1, ... in this order. *)
Theorem neutral_transcript_pairs t :
  Forall (λ d, neutral (text d) = true) (performDiarization t) →
  map speaker (performDiarization t)
    = map (λ i, label_name (pair_label i))
        (seq 0 (length (performDiarization t))).
Proof.
  rewrite performDiarization_attribute.
  unfold attribute_on_contained_question, attribute.
  destruct (map trim _) as [|s0 rest]; [done|].
  intros [Hs0 Hrest]%Forall_cons. cbn [text] in Hs0.
  apply (Forall_fmap text (λ x, neutral x = true)) in Hrest.
  change (list_fmap Segment string text) with (map text) in Hrest.
  rewrite attribute_rest_texts in Hrest.
  cbn [map fmap list_fmap length seq speaker]. f_equal.
  rewrite attribute_rest_length.
  destruct rest as [|s1 rest]; [done|].
  apply Forall_cons in Hrest as [Hs1 Hrest].
  cbn [attribute_rest map fmap list_fmap length seq speaker].
  rewrite (neutral_rule_flips _ _ _ _ Hs0 Hs1). cbn [label_name]. f_equal.
  apply (attribute_rest_neutral rest 0 s1 Hs1 Hrest).
Qed.

Lemma neutral_transcript_pairs_witness :
  map speaker (performDiarization "One. Two. Three. Four. Five. Six.")
    = ["Speaker 1"; "Speaker 1"; "Speaker 2"; "Speaker 2";
       "Speaker 1"; "Speaker 1"].
Proof.
  assert (H : Forall (λ d, neutral (text d) = true)
                (performDiarization "One. Two. Three. Four. Five. Six.")).
  { apply Forall_forall. intros d Hd. apply list_elem_of_In in Hd.
    revert d Hd. apply forallb_forall. vm_compute. reflexivity. }
  pose proof (neutral_transcript_pairs "One. Two. Three. Four. Five. Six." H) as E.
  vm_compute in E. vm_compute. exact E.
Defined.

(** *** Nothing but white space is dropped *)

Lemma strip_spaces_app (s1 s2 : string) :
  strip_spaces (s1 +:+ s2) = strip_spaces s1 +:+ strip_spaces s2.
Proof.
  induction s1 as [|c s1 IH]; [done|].
  rewrite app_cons_string. cbn [strip_spaces].
  destruct (is_space c); [done|]. by rewrite app_cons_string, IH.
Qed.

Lemma strip_spaces_blank s : all_space s = true → strip_spaces s = EmptyString.
Proof.
  induction s as [|c s IH]; [done|]. cbn [all_space strip_spaces].
  intros [-> Hs]%andb_true_iff. auto.
Qed.

Lemma strip_spaces_trimStart s : strip_spaces (trimStart s) = strip_spaces s.
Proof.
  induction s as [|c s IH]; [done|]. cbn [trimStart].
  destruct (is_space c) eqn:Hc; [|done]. cbn [strip_spaces]. by rewrite Hc.
Qed.

Lemma strip_spaces_trimEnd s : strip_spaces (trimEnd s) = strip_spaces s.
Proof.
  induction s as [|c s IH]; [done|]. cbn [trimEnd strip_spaces].
  destruct (is_space c) eqn:Hc; cbn [andb].
  - destruct (trimEnd s) as [|d r]; cbn [is_empty]; [done|].
    cbn [strip_spaces]. rewrite Hc. exact IH.
  - cbn [strip_spaces]. by rewrite Hc, IH.
Qed.

Lemma strip_spaces_trim s : strip_spaces (trim s) = strip_spaces s.
Proof. unfold trim. by rewrite strip_spaces_trimEnd, strip_spaces_trimStart. Qed.

Lemma strip_spaces_Split t (pieces : list string) :
  Split t pieces → strip_spaces (concat_strings pieces) = strip_spaces t.
Proof.
  induction 1 as [p _|p w rest pieces _ _ _ Hw _ _ IH].
  - cbn [concat_strings]. by rewrite app_empty_string.
  - cbn [concat_strings]. rewrite !strip_spaces_app, IH.
    by rewrite (strip_spaces_blank w Hw).
Qed.

Lemma strip_spaces_kept (pieces : list string) :
  strip_spaces (concat_strings (map trim (List.filter keeps pieces)))
    = strip_spaces (concat_strings pieces).
Proof.
  induction pieces as [|p pieces IH]; [done|]. cbn [List.filter concat_strings].
  rewrite strip_spaces_app. destruct (keeps p) eqn:Hp.
  - cbn [map fmap list_fmap concat_strings].
    by rewrite strip_spaces_app, strip_spaces_trim, IH.
  - apply keeps_false_iff in Hp. by rewrite (strip_spaces_blank p Hp), IH.
Qed.

(** X11. The attribution loses no text: the segment texts, put one after
    the other, have the same characters in the same order as the
    transcript once white space is taken out of both. *)
Theorem performDiarization_keeps_text t :
  strip_spaces (concat_strings (map text (performDiarization t)))
    = strip_spaces t.
Proof.
  rewrite performDiarization_texts, strip_spaces_kept.
  apply strip_spaces_Split, split_sentences_Split.
Qed.

(** *** Letter case *)

Lemma lower_facts c :
  is_space (lower c) = is_space c ∧
  is_terminal (lower c) = is_terminal c ∧
  Ascii.eqb (lower c) "?" = Ascii.eqb c "?" ∧
  lower (lower c) = lower c.
Proof.
  destruct c as [[] [] [] [] [] [] [] []]; vm_compute; done.
Qed.

Lemma toLowerCase_idem s : toLowerCase (toLowerCase s) = toLowerCase s.
Proof.
  induction s as [|c s IH]; [done|]. cbn [toLowerCase].
  rewrite IH. f_equal. apply lower_facts.
Qed.

Lemma split_pieces_lower s :
  ∀ after_terminal in_separator,
    split_pieces after_terminal in_separator (toLowerCase s)
      = (toLowerCase (split_pieces after_terminal in_separator s).1,
         map toLowerCase (split_pieces after_terminal in_separator s).2).
Proof.
  induction s as [|c s IH]; intros after_terminal in_separator; [done|].
  cbn [toLowerCase split_pieces].
  destruct (lower_facts c) as (-> & -> & _ & _).
  destruct (is_space c && (in_separator || after_terminal)).
  - rewrite IH. destruct (split_pieces false true s) as [piece pieces].
    by destruct in_separator.
  - rewrite IH. by destruct (split_pieces (is_terminal c) false s).
Qed.

Lemma trimStart_lower s : trimStart (toLowerCase s) = toLowerCase (trimStart s).
Proof.
  induction s as [|c s IH]; [done|]. cbn [toLowerCase trimStart].
  destruct (lower_facts c) as (-> & _). by destruct (is_space c).
Qed.

Lemma is_empty_lower s : is_empty (toLowerCase s) = is_empty s.
Proof. by destruct s. Qed.

Lemma trimEnd_lower s : trimEnd (toLowerCase s) = toLowerCase (trimEnd s).
Proof.
  induction s as [|c s IH]; [done|]. cbn [toLowerCase trimEnd].
  destruct (lower_facts c) as (-> & _). rewrite IH, is_empty_lower.
  by destruct (is_space c && is_empty (trimEnd s)).
Qed.

Lemma trim_lower s : trim (toLowerCase s) = toLowerCase (trim s).
Proof. unfold trim. by rewrite trimStart_lower, trimEnd_lower. Qed.

Lemma keeps_lower s : keeps (toLowerCase s) = keeps s.
Proof. unfold keeps. by rewrite trim_lower, is_empty_lower. Qed.

Lemma includes_question_lower s :
  includes_question (toLowerCase s) = includes_question s.
Proof.
  induction s as [|c s IH]; [done|]. cbn [toLowerCase includes_question].
  destruct (lower_facts c) as (_ & _ & -> & _). by rewrite IH.
Qed.

Lemma contains_marker_lower lexicon s :
  contains_marker lexicon (toLowerCase s) = contains_marker lexicon s.
Proof. unfold contains_marker. by rewrite toLowerCase_idem. Qed.

Lemma rule_flips_lower previous before current sentence :
  rule_flips includes_question (toLowerCase previous) before current
    (toLowerCase sentence)
  = rule_flips includes_question previous before current sentence.
Proof.
  unfold rule_flips. by rewrite includes_question_lower, !contains_marker_lower.
Qed.

Lemma attribute_rest_lower (sentences : list string) :
  ∀ before current previous,
    map speaker (attribute_rest includes_question before current
                   (toLowerCase previous) (map toLowerCase sentences))
    = map speaker (attribute_rest includes_question before current
                     previous sentences).
Proof.
  induction sentences as [|s sentences IH]; intros before current previous;
    [done|].
  cbn [map fmap list_fmap attribute_rest speaker].
  rewrite rule_flips_lower. f_equal. apply IH.
Qed.

Lemma filter_keeps_lower (pieces : list string) :
  List.filter keeps (map toLowerCase pieces)
    = map toLowerCase (List.filter keeps pieces).
Proof.
  induction pieces as [|p pieces IH]; [done|].
  cbn [map fmap list_fmap List.filter]. rewrite keeps_lower, IH.
  by destruct (keeps p).
Qed.

(** X12. The speakers do not depend on letter case: the transcript in
    lower case gets the same sequence of speakers, and its segments are
    the lower-case texts of the original ones. *)
Theorem performDiarization_case t :
  map speaker (performDiarization (toLowerCase t))
    = map speaker (performDiarization t) ∧
  map text (performDiarization (toLowerCase t))
    = map toLowerCase (map text (performDiarization t)).
Proof.
  assert (Hsplit : split_sentences (toLowerCase t)
                   = map toLowerCase (split_sentences t)).
  { unfold split_sentences. rewrite split_pieces_lower.
    by destruct (split_pieces false false t). }
  assert (Hkept : map trim (List.filter keeps (split_sentences (toLowerCase t)))
                  = map toLowerCase
                      (map trim (List.filter keeps (split_sentences t)))).
  { rewrite Hsplit, filter_keeps_lower.
    induction (List.filter keeps (split_sentences t)) as [|p ps IH]; [done|].
    cbn [map fmap list_fmap] in *. by rewrite trim_lower, IH. }
  split.
  - rewrite !performDiarization_attribute.
    unfold attribute_on_contained_question, attribute. rewrite Hkept.
    destruct (map trim (List.filter keeps (split_sentences t))) as [|s rest];
      [done|].
    cbn [map fmap list_fmap speaker]. f_equal. apply attribute_rest_lower.
  - by rewrite !performDiarization_texts.
Qed.

End DiarizationMore.


(* ===================================================================== *)
(** * More on the document route                                          *)
(* ===================================================================== *)

Section DocumentRouteMore.
Import RateLimiter Route DocumentRoute Samples Notions.

Implicit Types (w : World) (logs : Store) (request : Request).

(** A concrete number is in a concrete list. *)
Ltac code_listed := apply list_elem_of_In; cbn; tauto.

(** An evaluated answer: its code is listed and its calls are of the
    kinds asked for. *)
Ltac answered :=
  cbn; split;
  [ code_listed
  | repeat match goal with
           | |- Forall _ (_ :: _) =>
               apply Forall_cons; split; [first [by left; eexists | by right]|]
           | |- Forall _ [] => constructor
           end ].

(** *** How handler code ends *)

Lemma exits_mret {A} T R (V : A → Prop) (a : A) : V a → exits_in T R V (mret a).
Proof. done. Qed.

Lemma exits_respond {A} T (R : Response → Prop) (V : A → Prop) r :
  R r → exits_in T R V (respond r).
Proof. done. Qed.

Lemma exits_throw {A} (T : JsError → Prop) R (V : A → Prop) e :
  T e → exits_in T R V (throw e).
Proof. done. Qed.

Lemma exits_perform {A} (T : JsError → Prop) R (V : A → Prop) c
    (outcome : JsError + A) :
  (∀ e, outcome = inl e → T e) → (∀ a, outcome = inr a → V a) →
  exits_in T R V (perform c outcome).
Proof. unfold exits_in. destruct outcome; cbn; auto. Qed.

Lemma exits_bind {A B} T R (V' : A → Prop) (V : B → Prop)
    (m : Eff A) (f : A → Eff B) :
  exits_in T R V' m → (∀ a, V' a → exits_in T R V (f a)) →
  exits_in T R V (m ≫= f).
Proof.
  unfold exits_in. destruct m as [calls [[e|r]|a]]; cbn; try done.
  intros Ha Hf. specialize (Hf a Ha). by destruct (f a).
Qed.

Lemma exits_try_catch {A} (T' T : JsError → Prop) R (V : A → Prop)
    (m : Eff A) (handler : JsError → Eff A) :
  exits_in T' R V m → (∀ e, T' e → exits_in T R V (handler e)) →
  exits_in T R V (try_catch m handler).
Proof.
  unfold exits_in. destruct m as [calls [[e|r]|a]]; cbn; try done.
  intros He Hh. specialize (Hh e He). by destruct (handler e).
Qed.

Lemma exits_weaken {A} (T T' : JsError → Prop) (R R' : Response → Prop)
    (V V' : A → Prop) (m : Eff A) :
  exits_in T R V m →
  (∀ e, T e → T' e) → (∀ r, R r → R' r) → (∀ a, V a → V' a) →
  exits_in T' R' V' m.
Proof. unfold exits_in. destruct m as [calls [[e|r]|a]]; cbn; auto. Qed.

(** Anything can be said of how code ends when nothing is asked. *)
Lemma exits_any {A} (m : Eff A) :
  exits_in (λ _, True) (λ _, True) (λ _, True) m.
Proof. unfold exits_in. by destruct m as [calls [[e|r]|a]]. Qed.

(** The PDF branch ends with a summary or with a 400 answer, never with
    an exception. *)
Lemma summarize_pdf_exits w fileName pdfBuffer :
  exits_in (λ _, False)
    (λ r, response_code r = 400 ∧ has_stack r = false)
    (λ _, True)
    (summarize_pdf w fileName pdfBuffer).
Proof.
  unfold summarize_pdf.
  apply (exits_try_catch (λ _, True)).
  - apply (exits_bind _ _ (λ _, True)).
    + unfold convertPDFToImages.
      apply (exits_bind _ _ (λ _, True)); [by apply exits_perform|].
      intros [] _. apply (exits_bind _ _ (λ _, True)); [by apply exits_perform|].
      intros pdfData _. rewrite render_pages_spec. done.
    + intros [images pageCount] _. destruct (0 <? length images)%nat.
      * unfold analyzePDFImages.
        apply (exits_try_catch (λ _, True)).
        -- apply (exits_bind _ _ (λ _, True)).
           ++ generalize 0%nat. induction images as [|image images IH];
                intros i; [done|]. cbn [analyze_pages].
              apply (exits_bind _ _ (λ _, True)); [by apply exits_perform|].
              intros content _. apply (exits_bind _ _ (λ _, True)); [apply IH|].
              done.
           ++ intros summaries _.
              apply (exits_bind _ _ (λ _, True)); [by apply exits_perform|].
              done.
        -- intros e _. by case_bool_decide.
      * apply (exits_bind _ _ (λ _, True)); [by apply exits_perform|].
        intros pdfData _. destruct (usable_pdf_text _); [|done].
        apply (exits_bind _ _ (λ _, True)); [by apply exits_perform|]. done.
  - intros pdfError _. apply (exits_try_catch (λ _, True)).
    + apply (exits_bind _ _ (λ _, True)); [by apply exits_perform|].
      intros pdfData _. destruct (usable_pdf_text _); [|done].
      apply (exits_bind _ _ (λ _, True)); [by apply exits_perform|]. done.
    + intros e _. done.
Qed.

(** The status codes the route uses. *)
Lemma api_error_response_code (apiError : JsError) :
  response_code (api_error_response apiError) ∈ [401; 429; 503; 500] ∧
  has_stack (api_error_response apiError) = false.
Proof.
  unfold api_error_response.
  repeat case_bool_decide; (split; [code_listed|done]).
Qed.

Lemma handle_exits w request verdict :
  exits_in (λ _, (∃ e, formData request = inl e) ∨ text_as_document request)
    (λ r, response_code r ∈ [200; 400; 401; 429; 500; 503] ∧ has_stack r = false)
    (λ r, response_code r ∈ [200; 400; 401; 429; 500; 503] ∧ has_stack r = false)
    (handle w request verdict).
Proof.
  unfold handle. destruct (negb (allowed verdict)).
  { apply exits_respond. split; [code_listed|done]. }
  destruct (formData request) as [e|form] eqn:Hform.
  { unfold exits_in. cbn. eauto. }
  rewrite eff_ret_bind.
  match goal with
  | |- exits_in _ ?R ?V _ =>
      apply (exits_weaken (λ _, text_as_document request) _ R R V V);
        [|by right|done|done]
  end.
  apply (exits_bind _ _ (λ _, True)).
  { cbv zeta. destruct (negb _) eqn:Hvalid.
    { apply exits_respond. split; [code_listed|done]. }
    destruct (String.eqb _ "url") eqn:Hurl.
    - clear Hvalid Hurl. unfold read_url. destruct (field_url form) as [url|].
      2:{ apply exits_respond. split; [code_listed|done]. }
      destruct (Diarization.is_empty url).
      { apply exits_respond. split; [code_listed|done]. }
      destruct (url_protocol w url) as [protocol|].
      2:{ apply exits_respond. split; [code_listed|done]. }
      destruct (_ || _).
      2:{ apply exits_respond. split; [code_listed|done]. }
      apply (exits_try_catch (λ _, True)).
      + apply (exits_bind _ _ (λ _, True)); [|done].
        unfold extractTextFromUrl. apply (exits_try_catch (λ _, True)).
        * apply (exits_bind _ _ (λ _, True)); [by apply exits_perform|done].
        * intros e _. by repeat case_bool_decide.
      + intros e _. apply exits_respond. split; [code_listed|done].
    - assert (Hfile : field_type form = Some "file").
      { rewrite orb_false_r in Hvalid.
        destruct (field_type form) as [type|]; [|done].
        by apply negb_false_iff, String.eqb_eq in Hvalid as ->. }
      clear Hvalid Hurl.
      unfold read_file. destruct (field_document form) as [[text|file]|] eqn:Hdoc.
      3:{ apply exits_respond. split; [code_listed|done]. }
      { destruct (Diarization.is_empty text) eqn:Hempty.
        - apply exits_respond. split; [code_listed|done].
        - apply exits_throw. exists form, text.
          repeat split; try done. by intros ->. }
      case_bool_decide.
      { apply exits_respond. split; [code_listed|done]. }
      cbv zeta. apply (exits_try_catch (λ _, True)).
      + destruct (endsWith _ ".pdf"); [done|].
        destruct (_ || _).
        { apply (exits_bind _ _ (λ _, True)); [|done].
          unfold extractTextFromDoc. apply (exits_try_catch (λ _, True)).
          - apply (exits_bind _ _ (λ _, True)); [by apply exits_perform|done].
          - done. }
        destruct (_ || _); [done|].
        destruct (startsWith _ _); [done|].
        apply exits_respond. split; [code_listed|done].
      + intros e _. apply exits_respond. split; [code_listed|done]. }
  intros input _. destruct (key_missing _).
  { apply exits_respond. split; [code_listed|done]. }
  apply (exits_try_catch (λ _, True)).
  - apply (exits_bind _ _ (λ _, True)).
    + destruct input as [fileName textContent|fileName pdfBuffer].
      * unfold summarize_text. destruct (_ || _).
        { apply exits_respond. split; [code_listed|done]. }
        apply (exits_bind _ _ (λ _, True)); [by apply exits_perform|done].
      * eapply exits_weaken; [apply summarize_pdf_exits|done| |done].
        intros r [Hcode ?]. split; [by rewrite Hcode; code_listed|done].
    + intros summary _. apply exits_mret. split; [code_listed|done].
  - intros apiError _. apply exits_respond.
    destruct (api_error_response_code apiError) as [Hcode Hstack].
    split; [|done]. apply list_elem_of_In in Hcode. apply list_elem_of_In.
    cbn in *. tauto.
Qed.

(** X13. Whatever the request and whatever the outside world does, the
    document route answers with one of the status codes 200, 400, 401,
    429, 500 and 503. *)
Theorem document_POST_codes w now request logs :
  response_code (POST w now request logs).1.1 ∈ [200; 400; 401; 429; 500; 503].
Proof.
  unfold POST. destruct (heavy_verdict now request logs) as [verdict logs'].
  pose proof (handle_exits w request verdict) as Hexit. unfold exits_in in Hexit.
  destruct (handle w request verdict) as [calls [[e|r]|r]]; cbn in *.
  - code_listed.
  - by destruct Hexit.
  - by destruct Hexit.
Qed.

(** An admitted request whose form cannot be read, or whose [document]
    field holds a text that is not empty, ends the handler with an
    exception and without a call. *)
Lemma handle_throws w request verdict :
  allowed verdict = true →
  (∃ e, formData request = inl e) ∨ text_as_document request →
  ∃ e, handle w request verdict = ([], inl (Throw e)).
Proof.
  intros Hallowed [[e Hform]|(form & text & Hform & Htype & Hdoc & Htext)];
    unfold handle; rewrite Hallowed, Hform; cbn.
  - by exists e.
  - rewrite Htype. cbn. unfold read_file. rewrite Hdoc.
    destruct text as [|c text]; [done|]. cbn. by eexists.
Qed.

(** X14. A stack trace leaves the process in development mode only, and
    there exactly for the admitted requests whose form cannot be read or
    whose [document] field, in a file submission, holds a text that is
    not empty instead of a file. *)
Theorem document_POST_stack w now request logs :
  has_stack (POST w now request logs).1.1 = true ↔
  NODE_ENV w = Some "development" ∧
  allowed (heavy_verdict now request logs).1 = true ∧
  ((∃ e, formData request = inl e) ∨ text_as_document request).
Proof.
  unfold POST. destruct (heavy_verdict now request logs) as [verdict logs'].
  cbn [fst]. split.
  - pose proof (handle_exits w request verdict) as Hexit.
    unfold exits_in in Hexit. unfold handle in *.
    destruct (allowed verdict); [|done]. cbn [negb] in *.
    match type of Hexit with
    | match ?m.2 with _ => _ end => destruct m as [calls [[e|r]|r]]
    end; cbn in *.
    + case_bool_decide as Hdev; done.
    + destruct Hexit as [_ Hno]. by rewrite Hno.
    + destruct Hexit as [_ Hno]. by rewrite Hno.
  - intros (Hdev & Hallowed & Hcause).
    destruct (handle_throws w request verdict Hallowed Hcause) as [e ->].
    cbn. by rewrite bool_decide_eq_true_2.
Qed.

Lemma document_POST_stack_witness :
  has_stack
    (POST MoreSamples.workbench 1000 MoreSamples.pasted_request ∅).1.1 = true.
Proof.
  assert (Hcause : text_as_document MoreSamples.pasted_request).
  { exists (mkForm (Some "file") None (Some (TextValue "Minutes of the meeting"))),
      "Minutes of the meeting". by repeat split. }
  exact (proj2 (document_POST_stack MoreSamples.workbench 1000
                  MoreSamples.pasted_request ∅)
           (conj eq_refl (conj eq_refl (or_intror Hcause)))).
Defined.

(** X15. Without a configured API key the route never reaches the
    inference provider, the PDF parser or the page renderer: it answers
    with 400, 429 or 500, and the only calls it can have made by then
    are the fetch of the submitted URL and the Word text extraction. *)
Theorem document_POST_without_key w now request logs :
  key_missing (OPENAI_API_KEY w) = true →
  response_code (POST w now request logs).1.1 ∈ [400; 429; 500] ∧
  Forall (λ c, (∃ url, c = CallFetch url) ∨ c = CallMammoth)
    (POST w now request logs).2.
Proof.
  intros Hkey. unfold POST.
  destruct (heavy_verdict now request logs) as [verdict logs'].
  unfold handle. rewrite Hkey.
  destruct (negb (allowed verdict)); [answered|].
  destruct (formData request) as [e|form]; [answered|].
  rewrite eff_ret_bind. cbv zeta.
  destruct (negb _); [answered|].
  destruct (String.eqb _ "url").
  - unfold read_url. destruct (field_url form) as [url|]; [|answered].
    destruct (Diarization.is_empty url); [answered|].
    destruct (url_protocol w url) as [protocol|]; [|answered].
    destruct (_ || _); [|answered].
    unfold extractTextFromUrl.
    destruct (fetch_body_text w url) as [err|text]; cbn.
    + repeat case_bool_decide; answered.
    + answered.
  - unfold read_file.
    destruct (field_document form) as [[text|file]|]; [| |answered].
    { destruct (Diarization.is_empty text); answered. }
    case_bool_decide; [answered|]. cbv zeta.
    destruct (endsWith _ ".pdf"); [answered|].
    destruct (_ || _).
    { unfold extractTextFromDoc.
      destruct (mammoth_text w (content file)) as [err|value]; answered. }
    destruct (_ || _); [answered|].
    destruct (startsWith _ _); answered.
Qed.

Lemma document_POST_without_key_witness :
  response_code (POST demo_world 1000 scan_request ∅).1.1 ∈ [400; 429; 500] ∧
  Forall (λ c, (∃ url, c = CallFetch url) ∨ c = CallMammoth)
    (POST demo_world 1000 scan_request ∅).2.
Proof.
  exact (document_POST_without_key demo_world 1000 scan_request ∅ eq_refl).
Defined.

(** X16. An uploaded PDF is answered with 200 or 400 only: whatever the
    inference provider does after admission, be it a rejected key, a
    rate limit or an outage, its status never reaches the caller of the
    PDF branch. *)
Theorem pdf_upload_codes w now request logs (form : FormData) (file : File) :
  allowed (heavy_verdict now request logs).1 = true →
  formData request = inr form →
  field_type form = Some "file" →
  field_document form = Some (FileValue file) →
  size file ≤ 10 * 1024 * 1024 →
  endsWith (Diarization.toLowerCase (name file)) ".pdf" = true →
  key_missing (OPENAI_API_KEY w) = false →
  response_code (POST w now request logs).1.1 ∈ [200; 400].
Proof.
  intros Hallowed Hform Htype Hfile Hsize Hpdf Hkey.
  unfold POST. destruct (heavy_verdict now request logs) as [verdict logs'].
  cbn [fst snd] in *.
  rewrite (handle_pdf_upload w request verdict form file) by done.
  pose proof (summarize_pdf_exits w (name file) (content file)) as Hexit.
  unfold exits_in in Hexit.
  destruct (summarize_pdf w (name file) (content file))
    as [calls [[e|r]|summary]]; cbn in *.
  - done.
  - destruct Hexit as [-> _]. code_listed.
  - code_listed.
Qed.

Lemma pdf_upload_codes_witness :
  response_code
    (POST MoreSamples.locked_world 1000 MoreSamples.figures_request ∅).1.1
    ∈ [200; 400].
Proof.
  assert (Hsize : (4096 : Z) ≤ 10 * 1024 * 1024) by lia.
  exact (pdf_upload_codes MoreSamples.locked_world 1000
           MoreSamples.figures_request ∅
           (mkForm (Some "file") None
              (Some (FileValue
                       (mkFile "Figures.PDF" 4096 "application/pdf" "%PDF-1.7"))))
           (mkFile "Figures.PDF" 4096 "application/pdf" "%PDF-1.7")
           eq_refl eq_refl eq_refl eq_refl Hsize eq_refl eq_refl).
Defined.

End DocumentRouteMore.


(* ===================================================================== *)
(** * Bounds on what the document route does                              *)
(* ===================================================================== *)

Section DocumentRouteBounds.
Import RateLimiter Route DocumentRoute Samples Notions.
#[local] Open Scope nat_scope.

Implicit Types (w : World) (logs : Store) (request : Request)
  (kind : Call → bool).

Lemma count_calls_app kind (calls1 calls2 : list Call) :
  count_calls kind (calls1 ++ calls2)
    = (count_calls kind calls1 + count_calls kind calls2)%nat.
Proof. unfold count_calls. by rewrite List.filter_app, length_app. Qed.

Lemma at_most_mret {A} kind (n : nat) (a : A) : at_most kind n (mret a).
Proof. unfold at_most. cbn. lia. Qed.

Lemma at_most_respond {A} kind (n : nat) r : at_most kind n (respond (A:=A) r).
Proof. unfold at_most. cbn. lia. Qed.

Lemma at_most_throw {A} kind (n : nat) e : at_most kind n (throw (A:=A) e).
Proof. unfold at_most. cbn. lia. Qed.

Lemma at_most_perform {A} kind c (outcome : JsError + A) :
  at_most kind 1 (perform c outcome).
Proof. unfold at_most, count_calls. cbn. destruct (kind c); cbn; lia. Qed.

Lemma at_most_perform_other {A} kind c (outcome : JsError + A) :
  kind c = false → at_most kind 0 (perform c outcome).
Proof. intros Hc. unfold at_most, count_calls. cbn. by rewrite Hc. Qed.

Lemma at_most_le {A} kind (n n' : nat) (m : Eff A) :
  at_most kind n m → (n ≤ n')%nat → at_most kind n' m.
Proof. unfold at_most. lia. Qed.

(** A bind costs what its two parts cost; the second part may rely on
    what is known of the value of the first. *)
Lemma at_most_bind {A B} kind (n1 n2 : nat) (V : A → Prop)
    (m : Eff A) (f : A → Eff B) :
  exits_in (λ _, True) (λ _, True) V m →
  at_most kind n1 m → (∀ a, V a → at_most kind n2 (f a)) →
  at_most kind (n1 + n2) (m ≫= f).
Proof.
  unfold at_most, exits_in.
  destruct m as [calls [[e|r]|a]]; cbn -[count_calls]; try lia.
  intros Ha Hm Hf. specialize (Hf a Ha). destruct (f a) as [calls' out].
  cbn -[count_calls] in *. rewrite count_calls_app. lia.
Qed.

Lemma at_most_try_catch {A} kind (n1 n2 : nat) (m : Eff A)
    (handler : JsError → Eff A) :
  at_most kind n1 m → (∀ e, at_most kind n2 (handler e)) →
  at_most kind (n1 + n2) (try_catch m handler).
Proof.
  unfold at_most. destruct m as [calls [[e|r]|a]]; cbn -[count_calls]; try lia.
  intros Hm Hh. specialize (Hh e). destruct (handler e) as [calls' out].
  cbn -[count_calls] in *. rewrite count_calls_app. lia.
Qed.

Lemma within_le {A} (i r f i' r' f' : nat) (m : Eff A) :
  within i r f m → (i ≤ i')%nat → (r ≤ r')%nat → (f ≤ f')%nat →
  within i' r' f' m.
Proof. unfold within, at_most. lia. Qed.

Lemma within_mret {A} (a : A) : within 0 0 0 (mret a).
Proof. repeat split; apply at_most_mret. Qed.

Lemma within_respond {A} r : within 0 0 0 (respond (A:=A) r).
Proof. repeat split; apply at_most_respond. Qed.

Lemma within_throw {A} e : within 0 0 0 (throw (A:=A) e).
Proof. repeat split; apply at_most_throw. Qed.

Lemma within_perform {A} c (outcome : JsError + A) :
  within (if is_inference c then 1 else 0) (if is_render c then 1 else 0)
    (if is_fetch c then 1 else 0) (perform c outcome).
Proof.
  unfold within, at_most, count_calls. cbn.
  destruct (is_inference c), (is_render c), (is_fetch c); cbn; lia.
Qed.

Lemma within_bind {A B} (i1 r1 f1 i2 r2 f2 : nat) (V : A → Prop)
    (m : Eff A) (k : A → Eff B) :
  exits_in (λ _, True) (λ _, True) V m →
  within i1 r1 f1 m → (∀ a, V a → within i2 r2 f2 (k a)) →
  within (i1 + i2) (r1 + r2) (f1 + f2) (m ≫= k).
Proof.
  intros HV (Hi & Hr & Hf) Hk.
  repeat split; (eapply at_most_bind; [exact HV|done|]); intros a Ha;
    apply (Hk a Ha).
Qed.

Lemma within_try_catch {A} (i1 r1 f1 i2 r2 f2 : nat) (m : Eff A)
    (handler : JsError → Eff A) :
  within i1 r1 f1 m → (∀ e, within i2 r2 f2 (handler e)) →
  within (i1 + i2) (r1 + r2) (f1 + f2) (try_catch m handler).
Proof.
  intros (Hi & Hr & Hf) Hh.
  repeat split; (apply at_most_try_catch; [done|]); intros e; apply (Hh e).
Qed.

(** Apply the two composition rules up to arithmetic on the bounds. *)
Tactic Notation "bind_within" uconstr(i1) uconstr(r1) uconstr(f1)
    uconstr(i2) uconstr(r2) uconstr(f2) uconstr(V) :=
  apply (within_le (Nat.add i1 i2) (Nat.add r1 r2) (Nat.add f1 f2));
  [apply (within_bind i1 r1 f1 i2 r2 f2 V) | cbn [length]; lia ..].

(** Code that makes no call fits every bound. *)
Ltac free_within :=
  apply (within_le 0 0 0);
  [first [apply within_mret | apply within_respond | apply within_throw]
  | lia ..].

Tactic Notation "catch_within" uconstr(i1) uconstr(r1) uconstr(f1)
    uconstr(i2) uconstr(r2) uconstr(f2) :=
  apply (within_le (Nat.add i1 i2) (Nat.add r1 r2) (Nat.add f1 f2));
  [apply (within_try_catch i1 r1 f1 i2 r2 f2) | cbn [length]; lia ..].

(** The extractor yields at most five images and renders at most five
    pages. *)
Lemma convertPDFToImages_value w buffer :
  exits_in (λ _, True) (λ _, True)
    (λ out : list string * nat, (length out.1 ≤ 5)%nat)
    (convertPDFToImages w buffer).
Proof.
  unfold convertPDFToImages, exits_in.
  destruct (prepare_converter w buffer) as [e|[]]; [done|].
  destruct (parsePDF w buffer) as [e|data]; [done|].
  cbn [perform mbind eff_bind]. rewrite render_pages_spec. cbn.
  etransitivity; [apply length_omap_le|]. rewrite length_seq. lia.
Qed.

Lemma render_pages_within w buffer (pages : list nat) :
  within 0 (length pages) 0 (render_pages w buffer pages).
Proof.
  rewrite render_pages_spec. unfold within, at_most, count_calls. cbn.
  induction pages as [|i pages IH]; cbn in *; lia.
Qed.

Lemma convertPDFToImages_within w buffer :
  within 0 5 0 (convertPDFToImages w buffer).
Proof.
  unfold convertPDFToImages.
  bind_within 0 0 0 0 5 0 (λ _, True);
    [apply exits_any | apply (within_perform CallPrepare) |].
  intros [] _.
  bind_within 0 0 0 0 5 0 (λ _, True);
    [apply exits_any | apply (within_perform CallParsePDF) |].
  intros pdfData _.
  bind_within 0 5 0 0 0 0 (λ _, True); [apply exits_any| |].
  - eapply within_le; [apply render_pages_within|..]; rewrite ?length_seq; lia.
  - intros images _. apply within_mret.
Qed.

Lemma analyze_pages_within w fileName (images : list string) :
  ∀ i, within (length images) 0 0 (analyze_pages w fileName i images).
Proof.
  induction images as [|image images IH]; intros i; [apply within_mret|].
  cbn [analyze_pages length].
  bind_within 1 0 0 (length images) 0 0 (λ _, True);
    [apply exits_any | apply (within_perform (CallOpenAI _)) |].
  intros content _.
  bind_within (length images) 0 0 0 0 0 (λ _, True);
    [apply exits_any | apply IH |].
  intros summaries _. apply within_mret.
Qed.

Lemma analyzePDFImages_within w (images : list string) fileName pageCount :
  within (length images + 1) 0 0 (analyzePDFImages w images fileName pageCount).
Proof.
  unfold analyzePDFImages.
  catch_within (length images + 1) 0 0 0 0 0.
  - bind_within (length images) 0 0 1 0 0 (λ _, True);
      [apply exits_any | apply analyze_pages_within |].
    intros summaries _.
    bind_within 1 0 0 0 0 0 (λ _, True);
      [apply exits_any | apply (within_perform (CallOpenAI _)) |].
    intros content _. apply within_mret.
  - intros e. case_bool_decide; apply within_throw.
Qed.

(** The text fallback of the PDF branch: one parse, then at most one
    inference call. *)
Lemma pdf_text_fallback_within {A} w pdfBuffer (k : PdfData → Eff A) :
  (∀ pdfData, within 1 0 0 (k pdfData)) →
  within 1 0 0 (perform CallParsePDF (parsePDF w pdfBuffer) ≫= k).
Proof.
  intros Hk.
  bind_within 0 0 0 1 0 0 (λ _, True);
    [apply exits_any | apply (within_perform CallParsePDF) | auto].
Qed.

Lemma summarize_pdf_within w fileName pdfBuffer :
  within 7 5 0 (summarize_pdf w fileName pdfBuffer).
Proof.
  unfold summarize_pdf.
  catch_within 6 5 0 1 0 0.
  - bind_within 0 5 0 6 0 0 (λ out, (length out.1 ≤ 5)%nat);
      [apply convertPDFToImages_value | apply convertPDFToImages_within |].
    intros [images pageCount] Hlen. cbn [fst] in Hlen.
    destruct (0 <? length images)%nat.
    + eapply within_le; [apply analyzePDFImages_within|lia..].
    + eapply within_le; [apply pdf_text_fallback_within|lia..].
      intros pdfData. destruct (usable_pdf_text _); [|free_within].
      bind_within 1 0 0 0 0 0 (λ _, True);
        [apply exits_any | apply (within_perform (CallOpenAI _)) |].
      intros content _. apply within_mret.
  - intros pdfError. catch_within 1 0 0 0 0 0.
    + apply pdf_text_fallback_within.
      intros pdfData. destruct (usable_pdf_text _);
        [|free_within].
      bind_within 1 0 0 0 0 0 (λ _, True);
        [apply exits_any | apply (within_perform (CallOpenAI _)) |].
      intros content _. apply within_mret.
    + intros e. apply within_respond.
Qed.

Lemma handle_within w request verdict :
  within 7 5 1 (handle w request verdict).
Proof.
  unfold handle. destruct (negb (allowed verdict)).
  { free_within. }
  bind_within 0 0 0 7 5 1 (λ _, True); [apply exits_any| |].
  { destruct (formData request); [apply within_throw|apply within_mret]. }
  intros form _.
  bind_within 0 0 1 7 5 0 (λ _, True); [apply exits_any| |].
  { cbv zeta. destruct (negb _).
    { free_within. }
    destruct (String.eqb _ "url").
    - unfold read_url. destruct (field_url form) as [url|];
        [|free_within].
      destruct (Diarization.is_empty url);
        [free_within|].
      destruct (url_protocol w url) as [protocol|];
        [|free_within].
      destruct (_ || _); [|free_within].
      catch_within 0 0 1 0 0 0; [|intros e; apply within_respond].
      bind_within 0 0 1 0 0 0 (λ _, True);
        [apply exits_any | | intros t _; apply within_mret].
      unfold extractTextFromUrl. catch_within 0 0 1 0 0 0.
      + bind_within 0 0 1 0 0 0 (λ _, True);
          [apply exits_any | apply (within_perform (CallFetch _)) |].
        intros t _. apply within_mret.
      + intros e. repeat case_bool_decide; apply within_throw.
    - apply (within_le 0 0 0); [|lia..].
      unfold read_file. destruct (field_document form) as [[text|file]|];
        [| |apply within_respond].
      { destruct (Diarization.is_empty text);
          [apply within_respond|apply within_throw]. }
      case_bool_decide; [apply within_respond|]. cbv zeta.
      catch_within 0 0 0 0 0 0; [|intros e; apply within_respond].
      destruct (endsWith _ ".pdf"); [apply within_mret|].
      destruct (_ || _).
      { bind_within 0 0 0 0 0 0 (λ _, True);
          [apply exits_any | | intros t _; apply within_mret].
        unfold extractTextFromDoc.
        catch_within 0 0 0 0 0 0; [|intros e; apply within_throw].
        bind_within 0 0 0 0 0 0 (λ _, True);
          [apply exits_any | apply (within_perform CallMammoth) |].
        intros t _. apply within_mret. }
      destruct (_ || _); [apply within_mret|].
      destruct (startsWith _ _); [apply within_mret|apply within_respond]. }
  intros input _. destruct (key_missing _).
  { free_within. }
  catch_within 7 5 0 0 0 0; [|intros e; apply within_respond].
  bind_within 7 5 0 0 0 0 (λ _, True);
    [apply exits_any | | intros t _; apply within_mret].
  destruct input as [fileName textContent|fileName pdfBuffer].
  - apply (within_le 1 0 0); [|lia..].
    unfold summarize_text. destruct (_ || _);
      [free_within|].
    bind_within 1 0 0 0 0 0 (λ _, True);
      [apply exits_any | apply (within_perform (CallOpenAI _)) |].
    intros content _. apply within_mret.
  - apply summarize_pdf_within.
Qed.

(** X17. One request costs at most seven calls to the inference
    provider, five page renderings and one fetch, whatever the request
    and whatever the outcomes of the calls. *)
Theorem document_POST_cost w now request logs :
  (count_calls is_inference (POST w now request logs).2 ≤ 7)%nat ∧
  (count_calls is_render (POST w now request logs).2 ≤ 5)%nat ∧
  (count_calls is_fetch (POST w now request logs).2 ≤ 1)%nat.
Proof.
  unfold POST. destruct (heavy_verdict now request logs) as [verdict logs'].
  pose proof (handle_within w request verdict) as Hcost.
  unfold within, at_most in Hcost.
  by destruct (handle w request verdict) as [calls outcome].
Qed.

(** *** The text taken from a page *)

Lemma substring_length (n : nat) (s : string) :
  String.length (String.substring 0 n s) ≤ n.
Proof.
  revert n. induction s as [|c s IH]; intros [|n]; cbn; try lia.
  specialize (IH n). lia.
Qed.

Lemma substring_starts (n : nat) (s : string) :
  Diarization.starts_with_space s = false →
  Diarization.starts_with_space (String.substring 0 n s) = false.
Proof. destruct s as [|c s], n as [|n]; cbn; auto. Qed.

Lemma single_spaced_tail c (s : string) :
  single_spaced (String c s) = true → single_spaced s = true.
Proof. cbn [single_spaced]. by intros [_ ?]%andb_true_iff. Qed.

Lemma single_spaced_substring (n : nat) (s : string) :
  single_spaced s = true → single_spaced (String.substring 0 n s) = true.
Proof.
  revert n. induction s as [|c s IH]; intros [|n]; try done.
  cbn [String.substring single_spaced].
  intros [Hc Hs]%andb_true_iff. rewrite (IH n Hs), andb_true_r.
  destruct (Diarization.is_space c); [|done].
  apply andb_true_iff in Hc as [-> Hnext]. cbn [andb].
  apply negb_true_iff in Hnext. by rewrite substring_starts.
Qed.

Lemma single_spaced_trimStart (s : string) :
  single_spaced s = true → single_spaced (Diarization.trimStart s) = true.
Proof.
  induction s as [|c s IH]; [done|]. intros Hs. cbn [Diarization.trimStart].
  destruct (Diarization.is_space c); [|done].
  apply IH. by apply (single_spaced_tail c).
Qed.

Lemma trimEnd_starts_space (s : string) :
  Diarization.starts_with_space s = false →
  Diarization.starts_with_space (Diarization.trimEnd s) = false.
Proof.
  destruct s as [|c s]; [done|].
  cbn [Diarization.starts_with_space Diarization.trimEnd].
  intros Hc. rewrite Hc. cbn. done.
Qed.

Lemma single_spaced_trimEnd (s : string) :
  single_spaced s = true → single_spaced (Diarization.trimEnd s) = true.
Proof.
  induction s as [|c s IH]; [done|]. cbn [single_spaced Diarization.trimEnd].
  intros [Hc Hs]%andb_true_iff.
  destruct (Diarization.is_space c && Diarization.is_empty (Diarization.trimEnd s));
    [done|].
  cbn [single_spaced]. rewrite (IH Hs), andb_true_r.
  destruct (Diarization.is_space c); [|done].
  apply andb_true_iff in Hc as [-> Hnext]. cbn [andb].
  apply negb_true_iff in Hnext. by rewrite trimEnd_starts_space.
Qed.

Lemma collapse_single_spaced (s : string) :
  ∀ in_run : bool,
    single_spaced (collapse in_run s) = true ∧
    (in_run = true → Diarization.starts_with_space (collapse in_run s) = false).
Proof.
  induction s as [|c s IH]; intros in_run; [done|]. cbn [collapse].
  destruct (Diarization.is_space c) eqn:Hc.
  - destruct in_run.
    + apply IH.
    + split; [|done]. cbn [single_spaced].
      destruct (IH true) as [-> Hstart]. rewrite Hstart by done. done.
  - split.
    + cbn [single_spaced]. rewrite Hc. by destruct (IH false) as [-> _].
    + intros _. cbn. done.
Qed.

(** X18. The text the route takes from a fetched page has at most 4000
    characters, does not begin with white space, and its only white
    space is single plain spaces between other characters or at its cut
    end; the fetch is the only call made for it. *)
Theorem extractTextFromUrl_shape w url (text : string) :
  fetch_body_text w url = inr text →
  ∃ out,
    extractTextFromUrl w url = ([CallFetch url], inr out) ∧
    String.length out ≤ 4000 ∧
    Diarization.starts_with_space out = false ∧
    single_spaced out = true.
Proof.
  intros Hfetch. unfold extractTextFromUrl. rewrite Hfetch.
  eexists. split; [reflexivity|]. unfold slice0, Diarization.trim.
  split; [|split].
  - etransitivity; [apply substring_length|]. by vm_compute.
  - apply substring_starts, trimEnd_starts_space, trimStart_no_space.
  - apply single_spaced_substring, single_spaced_trimEnd, single_spaced_trimStart.
    apply collapse_single_spaced.
Qed.

Lemma extractTextFromUrl_shape_witness :
  ∃ out,
    extractTextFromUrl web_world "https://example.org/"
      = ([CallFetch "https://example.org/"], inr out) ∧
    String.length out ≤ 4000 ∧
    Diarization.starts_with_space out = false ∧
    single_spaced out = true.
Proof.
  exact (extractTextFromUrl_shape web_world "https://example.org/"
           "An  example   page with enough text to summarize." eq_refl).
Defined.

(** *** Requests are charged on arrival *)

Lemma POST_store w now request logs :
  (POST w now request logs).1.2 = (heavy_verdict now request logs).2.
Proof.
  unfold POST. destruct (heavy_verdict now request logs) as [verdict logs'].
  by destruct (handle w request verdict).
Qed.

(** Requests of one key inside its open window move the counter up by
    one each, whatever they ask for and however they are answered. *)
Lemma document_POST_all_open w (requests : list (Z * Request)) :
  ∀ logs (key : string) (k rt : Z),
    logs !! key = Some (mkLog k rt) →
    Forall (λ tr, (tr.1 ≤ rt)%Z ∧ document_key tr.2 = key) requests →
    (k + Z.of_nat (length requests) ≤ maxRequests heavy_config)%Z →
    (document_POST_all w requests logs).2 !! key
      = Some (mkLog (k + Z.of_nat (length requests)) rt).
Proof.
  induction requests as [|[now request] requests IH];
    intros logs key k rt Hl Hreqs Hk.
  - cbn. rewrite Z.add_0_r. done.
  - apply Forall_cons in Hreqs as [[Hnow Hkey] Hreqs]. cbn [fst snd] in *.
    cbn [document_POST_all length] in *.
    pose proof (POST_store w now request logs) as Hstore.
    destruct (POST w now request logs) as [[response logs1] calls].
    cbn [fst snd] in Hstore. subst logs1.
    specialize (IH (heavy_verdict now request logs).2 key (k + 1)%Z rt).
    destruct (document_POST_all w requests (heavy_verdict now request logs).2)
      as [responses logs2].
    cbn [snd] in *. rewrite IH; [do 2 f_equal; lia| |done|lia].
    unfold heavy_verdict. unfold document_key in Hkey.
    rewrite (rateLimit_open heavy_config now _ None logs (mkLog k rt));
      cbn [count resetTime snd]; rewrite ?Hkey; try done; try lia.
    apply lookup_insert_eq.
Qed.

(** X19. Every request is charged to the budget when it arrives, whether
    it is valid or not and whatever becomes of it: after five requests
    of one key in a window, of any content, the next request of that key
    in the window is answered 429 with the four rate-limit headers,
    without any call and without being counted. *)
Theorem document_budget_spent w logs (t0 : Z) (first : Request)
    (requests : list (Z * Request)) (tlast : Z) (last : Request) :
  window_closed logs (document_key first) t0 →
  Forall (λ tr, (tr.1 ≤ t0 + 60000)%Z ∧ document_key tr.2 = document_key first)
    requests →
  length requests = 4 →
  document_key last = document_key first →
  (tlast ≤ t0 + 60000)%Z →
  let spent := (document_POST_all w ((t0, first) :: requests) logs).2 in
  POST w tlast last spent
    = (mkResponse 429
         [("Retry-After",
           HeaderNumber (Some (ceil_div (t0 + 60000 - tlast) 1000)));
          ("X-RateLimit-Limit", HeaderText "5");
          ("X-RateLimit-Remaining", HeaderNumber (Some 0%Z));
          ("X-RateLimit-Reset", HeaderIsoTime (t0 + 60000))]
         (RateLimitedBody "Too many requests. Please try again later."
            (Some (ceil_div (t0 + 60000 - tlast) 1000))),
       spent, []).
Proof.
  intros Hclosed Hreqs Hlen Hlast Htime spent.
  assert (Hspent : spent !! document_key first = Some (mkLog 5 (t0 + 60000))).
  { subst spent. cbn [document_POST_all].
    pose proof (POST_store w t0 first logs) as Hstore.
    destruct (POST w t0 first logs) as [[response logs1] calls].
    cbn [fst snd] in Hstore. subst logs1.
    pose proof (document_POST_all_open w requests (heavy_verdict t0 first logs).2
                  (document_key first) 1 (t0 + 60000)) as Hopen.
    destruct (document_POST_all w requests (heavy_verdict t0 first logs).2)
      as [responses logs2].
    cbn [snd] in *. rewrite Hopen; [by rewrite Hlen| |done|rewrite Hlen; cbn; lia].
    unfold heavy_verdict, document_key in *.
    rewrite (rateLimit_fresh _ _ _ _ _ Hclosed). cbn [snd].
    apply lookup_insert_eq. }
  assert (Hverdict : heavy_verdict tlast last spent
                     = (mkResult false 0 (t0 + 60000)
                          (Some (ceil_div (t0 + 60000 - tlast) 1000)), spent)).
  { unfold heavy_verdict. unfold document_key in Hlast, Hspent.
    rewrite <- Hlast in Hspent.
    rewrite (rateLimit_full heavy_config tlast _ None spent _ Hspent);
      cbn [count resetTime]; [done|lia|cbn; lia]. }
  rewrite (POST_rejected w tlast last spent); rewrite Hverdict; done.
Qed.

Lemma document_budget_spent_witness :
  response_code
    (POST web_world 1500%Z
       (url_request "https://example.org/")
       (document_POST_all web_world
          [(1000%Z, scan_request); (1100%Z, url_request "ftp://example.org/a");
           (1200%Z, url_request ""); (1300%Z, scan_request);
           (1400%Z, url_request "http://localhost:9/")] ∅).2).1.1 = 429%Z.
Proof.
  assert (H : Forall (λ tr, (tr.1 ≤ 1000 + 60000)%Z
                            ∧ document_key tr.2 = document_key scan_request)
                [(1100%Z, url_request "ftp://example.org/a");
                 (1200%Z, url_request ""); (1300%Z, scan_request);
                 (1400%Z, url_request "http://localhost:9/")])
    by (repeat constructor; cbn; lia).
  assert (Ht : (1500 ≤ 1000 + 60000)%Z) by lia.
  pose proof (document_budget_spent web_world ∅ 1000%Z scan_request _ 1500%Z
                (url_request "https://example.org/") I H eq_refl eq_refl Ht) as E.
  cbv zeta in E. rewrite E. reflexivity.
Defined.

End DocumentRouteBounds.


(* ===================================================================== *)
(** * Further properties of the image route                               *)
(* ===================================================================== *)

Section ImageRouteMore.
Import RateLimiter Route DocumentRoute Notions.

Implicit Types (w : World) (logs : Store) (request : ImageRoute.Request).

#[local] Ltac listed := apply list_elem_of_In; cbn; tauto.

(** The run of the image handler for an upload that passes the checks on
    type and size. *)
Lemma image_handle_valid w request (imageFile : File) :
  ImageRoute.formData request = inr (Some imageFile) →
  existsb (String.eqb (type imageFile)) ImageRoute.validImageTypes = true →
  size imageFile ≤ 20 * 1024 * 1024 →
  key_missing (OPENAI_API_KEY w) = false →
  let req := ImageDescription (type imageFile)
               (ImageRoute.base64 (content imageFile)) in
  ImageRoute.handle w request
  = ([CallOpenAI req],
     inl (Return
       match chat w req with
       | inr content =>
           json (DescriptionBody
                   (FromModel (or_default content "Unable to analyze image"))) 200
       | inl apiError =>
           if bool_decide (status apiError = Some 401) then
             json (ErrorBody
                     "Invalid OpenAI API key. Please check your configuration."
                     None) 500
           else if bool_decide (status apiError = Some 429) then
             json (ErrorBody "API rate limit exceeded. Please try again later."
                     None) 429
           else if bool_decide (code apiError = Some "model_not_found") then
             json (DescriptionBody
                     (ModelMissing (name imageFile) (type imageFile)
                        (size imageFile))) 200
           else
             json (DescriptionBody
                     (ServiceUnavailable (name imageFile) (type imageFile)
                        (size imageFile))) 200
       end)).
Proof.
  intros Hform Htype Hsize Hkey req.
  unfold ImageRoute.handle. rewrite Hform. cbn -[existsb].
  rewrite Htype. cbn.
  rewrite bool_decide_eq_false_2 by lia.
  rewrite Hkey. cbn.
  fold req. destruct (chat w req) as [apiError|content]; cbn; [|done].
  repeat case_bool_decide; done.
Qed.

(** The run of the image handler in every other case: no call is made. *)
Lemma image_handle_other w request :
  (∀ imageFile,
     ImageRoute.formData request = inr (Some imageFile) →
     existsb (String.eqb (type imageFile)) ImageRoute.validImageTypes = true →
     size imageFile ≤ 20 * 1024 * 1024 →
     key_missing (OPENAI_API_KEY w) = true) →
  (ImageRoute.handle w request).1 = [] ∧
  ((∃ e, ImageRoute.formData request = inl e ∧
         (ImageRoute.handle w request).2 = inl (Throw e)) ∨
   (∃ r, (ImageRoute.handle w request).2 = inl (Return r) ∧
         response_code r ∈ [200; 400])).
Proof.
  intros Hother. unfold ImageRoute.handle.
  destruct (ImageRoute.formData request) as [e|[imageFile|]] eqn:Hform;
    cbn -[existsb].
  - split; [done|]. left. by exists e.
  - specialize (Hother imageFile eq_refl).
    destruct (existsb _ _) eqn:Htype; cbn.
    + case_bool_decide as Hsize; cbn.
      * split; [done|]. right. eexists. split; [done|]. listed.
      * rewrite Hother by (done || lia). cbn.
        split; [done|]. right. eexists. split; [done|]. listed.
    + split; [done|]. right. eexists. split; [done|]. listed.
  - split; [done|]. right. eexists. split; [done|]. listed.
Qed.

(** Either an upload passes every check with a key configured, or the
    premise of [image_handle_other] holds. *)
Lemma image_request_cases w request :
  (∃ imageFile,
     ImageRoute.formData request = inr (Some imageFile) ∧
     existsb (String.eqb (type imageFile)) ImageRoute.validImageTypes = true ∧
     size imageFile ≤ 20 * 1024 * 1024 ∧
     key_missing (OPENAI_API_KEY w) = false) ∨
  (∀ imageFile,
     ImageRoute.formData request = inr (Some imageFile) →
     existsb (String.eqb (type imageFile)) ImageRoute.validImageTypes = true →
     size imageFile ≤ 20 * 1024 * 1024 →
     key_missing (OPENAI_API_KEY w) = true).
Proof.
  destruct (key_missing (OPENAI_API_KEY w)) eqn:Hkey; [by right|].
  destruct (ImageRoute.formData request) as [e|[imageFile|]] eqn:Hform;
    [by right| |by right].
  destruct (existsb (String.eqb (type imageFile)) ImageRoute.validImageTypes)
    eqn:Htype.
  - destruct (decide (size imageFile ≤ 20 * 1024 * 1024)) as [Hsize|Hsize].
    + left. by exists imageFile.
    + right. intros f [= <-] _ ?. lia.
  - right. intros f [= <-]. by rewrite Htype.
Qed.

(** X20. The image route answers every request with 200, 400, 429 or
    500, calls the inference provider at most once, and does not call it
    at all when no usable key is configured. *)
Theorem image_POST_outcomes w now request logs :
  response_code (ImageRoute.POST w now request logs).1.1 ∈ [200; 400; 429; 500] ∧
  (length (ImageRoute.POST w now request logs).2 ≤ 1)%nat ∧
  (key_missing (OPENAI_API_KEY w) = true →
   (ImageRoute.POST w now request logs).2 = []).
Proof.
  unfold ImageRoute.POST.
  destruct (image_request_cases w request)
    as [(imageFile & Hform & Htype & Hsize & Hkey)|Hother].
  - rewrite (image_handle_valid w request imageFile) by done. cbn.
    split; [|split; [lia|congruence]].
    destruct (chat w _) as [apiError|content]; [|listed].
    repeat case_bool_decide; listed.
  - destruct (image_handle_other w request Hother) as [Hcalls Hexit].
    destruct (ImageRoute.handle w request) as [calls outcome]. cbn in *.
    subst calls. split; [|split; [cbn; lia|done]].
    destruct Hexit as [(e & _ & ->)|(r & -> & Hr)]; [listed|].
    apply list_elem_of_In in Hr. apply list_elem_of_In. cbn in *. tauto.
Qed.

(** X21. The image route calls the provider only for an upload of a
    listed image type of at most 20 MiB while a key is configured, and
    the call carries the type and the bytes of that upload. *)
Theorem image_call_conditions w now request logs (call : Call) :
  call ∈ (ImageRoute.POST w now request logs).2 →
  ∃ imageFile,
    ImageRoute.formData request = inr (Some imageFile) ∧
    type imageFile ∈ ImageRoute.validImageTypes ∧
    size imageFile ≤ 20 * 1024 * 1024 ∧
    key_missing (OPENAI_API_KEY w) = false ∧
    call = CallOpenAI (ImageDescription (type imageFile)
                         (ImageRoute.base64 (content imageFile))).
Proof.
  unfold ImageRoute.POST.
  destruct (image_request_cases w request)
    as [(imageFile & Hform & Htype & Hsize & Hkey)|Hother].
  - rewrite (image_handle_valid w request imageFile) by done. cbn.
    intros ->%list_elem_of_singleton. exists imageFile.
    repeat split; try done.
    apply existsb_exists in Htype as (t & Ht & ->%String.eqb_eq).
    by apply list_elem_of_In.
  - destruct (image_handle_other w request Hother) as [Hcalls _].
    destruct (ImageRoute.handle w request) as [calls outcome]. cbn in *.
    subst calls. by intros ?%elem_of_nil.
Qed.

Lemma image_call_conditions_witness :
  ∃ imageFile,
    ImageRoute.formData Samples.photo_request = inr (Some imageFile) ∧
    type imageFile ∈ ImageRoute.validImageTypes ∧
    size imageFile ≤ 20 * 1024 * 1024 ∧
    key_missing (OPENAI_API_KEY Samples.quiet_world) = false ∧
    CallOpenAI (ImageDescription "image/png" "PNG")
    = CallOpenAI (ImageDescription (type imageFile)
                    (ImageRoute.base64 (content imageFile))).
Proof.
  assert (H : CallOpenAI (ImageDescription "image/png" "PNG")
              ∈ (ImageRoute.POST Samples.quiet_world 1000 Samples.photo_request
                   ∅).2)
    by (vm_compute; left).
  exact (image_call_conditions Samples.quiet_world 1000 Samples.photo_request ∅
           _ H).
Defined.

(** X22. The image route has no limit of its own: it answers 429 only to
    pass on a 429 of the inference provider, and 500 only when the form
    cannot be read or the provider rejects the key with 401. *)
Theorem image_POST_errors w now request logs :
  (response_code (ImageRoute.POST w now request logs).1.1 = 429 →
   ∃ req e, (ImageRoute.POST w now request logs).2 = [CallOpenAI req] ∧
            chat w req = inl e ∧ status e = Some 429) ∧
  (response_code (ImageRoute.POST w now request logs).1.1 = 500 →
   (∃ e, ImageRoute.formData request = inl e) ∨
   (∃ req e, (ImageRoute.POST w now request logs).2 = [CallOpenAI req] ∧
             chat w req = inl e ∧ status e = Some 401)).
Proof.
  unfold ImageRoute.POST.
  destruct (image_request_cases w request)
    as [(imageFile & Hform & Htype & Hsize & Hkey)|Hother].
  - rewrite (image_handle_valid w request imageFile) by done. cbn.
    destruct (chat w _) as [apiError|content] eqn:Hchat; [|by split].
    repeat case_bool_decide; cbn; split; try done; intros _.
    + right. by eexists _, _.
    + by eexists _, _.
  - destruct (image_handle_other w request Hother) as [Hcalls Hexit].
    destruct (ImageRoute.handle w request) as [calls outcome]. cbn in *.
    subst calls.
    destruct Hexit as [(e & Hform & ->)|(r & -> & Hr)]; cbn.
    + split; [done|]. intros _. left. by exists e.
    + split; intros Hcode; rewrite Hcode in Hr;
        apply list_elem_of_In in Hr; cbn in Hr; lia.
Qed.

End ImageRouteMore.


(* ===================================================================== *)
(** * Properties of the conversation route                                *)
(* ===================================================================== *)

Section ConversationRouteFacts.
Import Route DocumentRoute ConversationRoute.

Implicit Types (w : ConversationRoute.World)
  (request : ConversationRoute.Request).

#[local] Ltac listed := apply list_elem_of_In; cbn; tauto.
#[local] Ltac bounded := split; [listed|split; [cbn; lia|done]].

Lemma summary_of_calls w transcript :
  (summary_of w transcript).1 = [] ∧
    Diarization.is_empty transcript = true ∧
    (summary_of w transcript).2 = EmptyString
  ∨ (summary_of w transcript).1 = [CallSummarize transcript] ∧
    Diarization.is_empty transcript = false.
Proof.
  unfold summary_of. destruct (Diarization.is_empty transcript); cbn; auto.
Qed.

(** X23. The conversation route answers every request with 200, 400 or
    500, calls the inference provider at most twice, and does not call
    it at all when no usable key is configured. *)
Theorem conversation_POST_outcomes w request :
  ConversationRoute.response_code (ConversationRoute.POST w request).1
    ∈ [200; 400; 500] ∧
  (length (ConversationRoute.POST w request).2 ≤ 2)%nat ∧
  (key_missing (ConversationRoute.OPENAI_API_KEY w) = true →
   (ConversationRoute.POST w request).2 = []).
Proof.
  unfold ConversationRoute.POST.
  destruct (ConversationRoute.formData request) as [e|[[text|audioFile]|]];
    cbn -[existsb]; [bounded| | |bounded].
  { destruct (Diarization.is_empty text); cbn; bounded. }
  destruct (existsb _ _); cbn; [|bounded].
  unfold transcribe_and_summarize.
  destruct (key_missing (ConversationRoute.OPENAI_API_KEY w)); cbn; [bounded|].
  destruct (new_File w); cbn; [bounded|].
  destruct (transcribe w _ _ _) as [whisperError|text]; cbn.
  - case_bool_decide; cbn; [bounded|].
    destruct (summary_of_calls w fallback_transcript) as [(Hc & _)|(Hc & _)];
      destruct (summary_of w fallback_transcript) as [calls summary];
      cbn in *; subst calls; cbn; bounded.
  - destruct (summary_of_calls w text) as [(Hc & _)|(Hc & _)];
      destruct (summary_of w text) as [calls summary];
      cbn in *; subst calls; cbn; bounded.
Qed.

(** X24. Once an audio or video file is uploaded, only a rejected key
    fails the request: unless transcription fails with status 401, the
    answer is 200, whatever else fails at the provider. *)
Theorem conversation_survives_failures w request (audioFile : File) :
  ConversationRoute.formData request = inr (Some (FileValue audioFile)) →
  existsb (startsWith (type audioFile)) validAudioTypes = true →
  (∀ e, transcribe w (name audioFile) (type audioFile) (content audioFile)
        = inl e → status e ≠ Some 401) →
  ConversationRoute.response_code (ConversationRoute.POST w request).1 = 200.
Proof.
  intros Hform Htype Hwhisper.
  unfold ConversationRoute.POST. rewrite Hform, Htype. cbn.
  unfold transcribe_and_summarize.
  destruct (key_missing (ConversationRoute.OPENAI_API_KEY w)); cbn; [done|].
  destruct (new_File w); cbn; [done|].
  destruct (transcribe w _ _ _) as [whisperError|text] eqn:Ht; cbn.
  - rewrite bool_decide_eq_false_2 by by apply Hwhisper.
    by destruct (summary_of w fallback_transcript).
  - by destruct (summary_of w text).
Qed.

Lemma conversation_survives_failures_witness :
  ConversationRoute.response_code
    (ConversationRoute.POST MoreSamples.flaky_speech MoreSamples.voice_memo).1
  = 200.
Proof.
  assert (H : ∀ e,
    transcribe MoreSamples.flaky_speech (name MoreSamples.memo)
      (type MoreSamples.memo) (content MoreSamples.memo) = inl e →
    status e ≠ Some 401) by (intros e [= <-]; discriminate).
  exact (conversation_survives_failures MoreSamples.flaky_speech
           MoreSamples.voice_memo MoreSamples.memo eq_refl eq_refl H).
Defined.

(** X25. A successful answer of the conversation route is consistent:
    its segments are the diarization of the transcript it returns, a
    summary was requested for no other text than that transcript, and an
    empty transcript comes with an empty summary. *)
Theorem conversation_answer_consistent w request transcript diarization summary :
  ConversationRoute.body (ConversationRoute.POST w request).1
    = ResultBody transcript diarization summary →
  diarization = Diarization.performDiarization transcript ∧
  (∀ text, CallSummarize text ∈ (ConversationRoute.POST w request).2 →
           text = transcript) ∧
  (transcript = EmptyString → summary = EmptyString).
Proof.
  assert (Hin : ∀ (text : string) (calls : list ConversationRoute.Call)
                  (t : string),
    (calls = [] ∨ calls = [CallSummarize t]) →
    ∀ name type, CallSummarize text ∈ CallTranscribe name type :: calls →
    text = t).
  { intros text calls t Hcalls name type Hin.
    apply list_elem_of_In in Hin.
    destruct Hcalls as [-> | ->]; cbn in Hin; intuition congruence. }
  unfold ConversationRoute.POST.
  destruct (ConversationRoute.formData request) as [e|[[text|audioFile]|]];
    cbn -[existsb]; [done| | |done].
  { by destruct (Diarization.is_empty text). }
  destruct (existsb _ _); cbn; [|done].
  unfold transcribe_and_summarize.
  destruct (key_missing (ConversationRoute.OPENAI_API_KEY w)); cbn.
  { intros [= <- <- <-]. split; [done|]. split; [|done].
    by intros ? ?%elem_of_nil. }
  destruct (new_File w); cbn.
  { intros [= <- <- <-]. split; [done|]. split; [|done].
    by intros ? ?%elem_of_nil. }
  destruct (transcribe w _ _ _) as [whisperError|text]; cbn.
  - case_bool_decide; cbn; [done|].
    destruct (summary_of_calls w fallback_transcript)
      as [(Hc & He & Hs)|(Hc & He)];
      destruct (summary_of w fallback_transcript) as [calls s];
      cbn [fst snd] in *; subst; [done|]. cbn.
    intros [= <- <- <-]. split; [done|]. split; [|done].
    intros t. apply Hin. by right.
  - destruct (summary_of_calls w text) as [(Hc & He & Hs)|(Hc & He)];
      destruct (summary_of w text) as [calls s]; cbn [fst snd] in *; subst;
      cbn; intros [= <- <- <-]; (split; [done|]); split; try done.
    + intros t. apply (Hin _ []). by left.
    + intros t. apply Hin. by right.
    + by intros ->.
Qed.

Lemma conversation_answer_consistent_witness :
  Diarization.performDiarization fallback_transcript
    = Diarization.performDiarization fallback_transcript ∧
  (∀ text,
     CallSummarize text
       ∈ (ConversationRoute.POST MoreSamples.flaky_speech
            MoreSamples.voice_memo).2 →
     text = fallback_transcript) ∧
  (fallback_transcript = EmptyString →
   "Two people plan a project." = EmptyString).
Proof.
  exact (conversation_answer_consistent MoreSamples.flaky_speech
           MoreSamples.voice_memo fallback_transcript
           (Diarization.performDiarization fallback_transcript)
           "Two people plan a project." eq_refl).
Defined.

End ConversationRouteFacts.


(* ===================================================================== *)
(** * Properties of the history                                           *)
(* ===================================================================== *)

Section HistoryFacts.
Import History.

Lemma take_cons_take {A} (n : nat) (x : A) (l : list A) :
  take n (x :: take n l) = take n (x :: l).
Proof.
  destruct n as [|n]; [done|]. cbn. f_equal.
  rewrite take_take. f_equal. lia.
Qed.

Lemma history_fold (entries prev : list Entry) :
  foldl (λ prev e, addToHistory (id e) (type e) (input e) (output e) prev)
    (take 10 prev) entries
  = take 10 (reverse entries ++ prev).
Proof.
  revert prev. induction entries as [|e entries IH]; intros prev; [done|].
  cbn [foldl]. unfold addToHistory at 2.
  destruct e as [i t inp out]. cbn [id type input output].
  rewrite take_cons_take, IH, reverse_cons, <- app_assoc. done.
Qed.

(** X26. The history of the page holds the ten most recent analyses,
    newest first: after any series of analyses it is the first ten of
    the series read backwards. *)
Theorem history_newest_ten (entries : list Entry) :
  history_after entries = take 10 (reverse entries).
Proof.
  unfold history_after.
  change (@nil Entry) with (take 10 (@nil Entry)) at 1.
  by rewrite history_fold, app_nil_r.
Qed.

End HistoryFacts.
